(** * The left/right video pipeline of [main.py]

    A shallow embedding of the orchestrator: the two transform pools that
    fill the shared sets [transformed_left] and [transformed_right], the
    combine task [join_videos], and the main thread's [while] loop that
    snapshots both sets, dispatches the Cartesian product and accumulates
    [all_video_combinations].

    Conventions of the model:
    - Python [str] values are [string]s (file names are taken to be ASCII,
      so that a character of the model is a character of the source);
    - the three module-level sets are [gset]s;
    - everything the code does to the outside world (printing, launching
      ffmpeg, sleeping, taking a lock, touching a registry) is appended to
      a [trace], and the answers of the outside world (the exit status of
      a process, the reading of the clock) are supplied by the schedule;
    - a function body is a computation in a small monad whose results
      distinguish normal return, a raised exception and blocking forever
      on a lock. *)

From Stdlib Require Import QArith Ascii.
From stdpp Require Import gmap strings list.

#[local] Set Warnings "-clear-no-such-hyp".

Local Open Scope nat_scope.

(** ** Constants of the module (lines 37-57) *)

Definition MAX_CONCURRENT_DEC_PROCESSES : nat := 30.
Definition MAX_CONCURRENT_ENC_PROCESSES : nat := 30.
Definition MAX_ENC_TIME : Q := 10800 # 1.
Definition INTER_DEC_TIME : Q := 1 # 2.
Definition INTER_ENC_TIME : Q := 1 # 2.

Definition output_left_dir : string := "transformed_left_videos".
Definition output_right_dir : string := "transformed_right_videos".
Definition final_output_dir : string := "video_output".

(** ** The pieces of [os.path] and of [str] that the code calls *)

Module Path.

Definition sep : Ascii.ascii := "/"%char.

(** [p.rfind("/")]: the index of the last separator, [-1] without one. *)
Fixpoint rfind (p : string) : Z :=
  match p with
  | EmptyString => (-1)%Z
  | String c r =>
      let i := rfind r in
      if (0 <=? i)%Z then (i + 1)%Z
      else if Ascii.eqb c sep then 0%Z else (-1)%Z
  end.

(** [s[i:]] and [s[:n]] for [0 <= i], [0 <= n]. *)
Fixpoint drop (i : nat) (s : string) : string :=
  match i, s with
  | O, _ => s
  | S _, EmptyString => EmptyString
  | S i', String _ r => drop i' r
  end.

Fixpoint take (n : nat) (s : string) : string :=
  match n, s with
  | O, _ => EmptyString
  | S _, EmptyString => EmptyString
  | S n', String c r => String c (take n' r)
  end.

(** [posixpath.basename]: [i = p.rfind(sep) + 1; return p[i:]]. *)
Definition basename (p : string) : string :=
  let i := (rfind p + 1)%Z in
  drop (Z.to_nat i) p.

(** [s[:-4]]: everything but the last four characters, the empty string
    when there are four or fewer. *)
Definition chop4 (s : string) : string :=
  take (String.length s - 4) s.

Definition startswith_sep (s : string) : bool :=
  match s with
  | String c _ => Ascii.eqb c sep
  | EmptyString => false
  end.

Fixpoint endswith_sep (s : string) : bool :=
  match s with
  | EmptyString => false
  | String c EmptyString => Ascii.eqb c sep
  | String _ r => endswith_sep r
  end.

(** [posixpath.join(a, b)] with one component [b]. *)
Definition join (a b : string) : string :=
  if startswith_sep b then b
  else if orb (String.eqb a "") (endswith_sep a) then a +:+ b
  else a +:+ String sep b.

(** No separator anywhere in the string. *)
Fixpoint plain (s : string) : bool :=
  match s with
  | EmptyString => true
  | String c r => negb (Ascii.eqb c sep) && plain r
  end.

End Path.

(** ** The observable world *)

Inductive lock := lock_transformed_left | lock_transformed_right.

Inductive registry := RegLeft | RegRight.

Inductive action :=
| Print (line : string)
| PrintSet (s : gset (string * string))
| Launch (cmd : list string)
| Sleep (secs : Q)
| Acquire (l : lock)
| Release (l : lock)
| Add (r : registry) (artifact : string)
| Read (r : registry)
| Union (batch : gset (string * string)).

Record world := World {
  transformed_left : gset string;
  transformed_right : gset string;
  all_video_combinations : gset (string * string);
  held : list lock;
  trace : list action
}.

Definition empty_world : world :=
  {| transformed_left := ∅; transformed_right := ∅;
     all_video_combinations := ∅; held := []; trace := [] |}.

(** What [subprocess.run] answers: the process could not be launched (an
    exception), or it ran and left an exit status and its captured standard
    error, of which the code only ever asks [stderr.decode()], [None] when
    the bytes are not valid UTF-8. *)
Inductive run_outcome :=
| Exited (returncode : Z) (stderr_text : option string)
| LaunchFailed (why : string).

Definition succeeded (o : run_outcome) : bool :=
  match o with
  | Exited rc _ => (rc =? 0)%Z
  | LaunchFailed _ => false
  end.

(** ** The monad of function bodies *)

Inductive result (A : Type) :=
| Returned (a : A)
| Raised (e : string)
| Blocked.
Arguments Returned {A} a.
Arguments Raised {A} e.
Arguments Blocked {A}.

Definition M (A : Type) : Type := world → result A * world.


Global Instance M_mret : MRet M := λ A a w, (Returned a, w).

Global Instance M_bind : MBind M := λ A B k m w,
  match m w with
  | (Returned a, w') => k a w'
  | (Raised e, w') => (Raised e, w')
  | (Blocked, w') => (Blocked, w')
  end.

Definition raise {A} (e : string) : M A := λ w, (Raised e, w).

(** [try: body except Exception as e: handler(e)] *)
Definition try_except {A} (body : M A) (handler : string → M A) : M A :=
  λ w, match body w with
       | (Raised e, w') => handler e w'
       | other => other
       end.

Definition emit (a : action) : M unit :=
  λ w, (Returned tt,
        {| transformed_left := transformed_left w;
           transformed_right := transformed_right w;
           all_video_combinations := all_video_combinations w;
           held := held w;
           trace := trace w ++ [a] |}).

Definition print (line : string) : M unit := emit (Print line).
Definition sleep (secs : Q) : M unit := emit (Sleep secs).

Global Instance lock_eq_dec : EqDecision lock.
Proof. solve_decision. Defined.

Global Instance registry_eq_dec : EqDecision registry.
Proof. solve_decision. Defined.

Definition set_held (h : list lock) : M unit :=
  λ w, (Returned tt,
        {| transformed_left := transformed_left w;
           transformed_right := transformed_right w;
           all_video_combinations := all_video_combinations w;
           held := h;
           trace := trace w |}).

(** [threading.Lock] is not re-entrant: acquiring a lock that is taken
    blocks until somebody releases it. Inside one atomic turn nobody else
    runs, so a taken lock blocks for good. *)
Definition acquire (l : lock) : M unit :=
  λ w, if decide (l ∈ held w) then (Blocked, w)
       else (set_held (l :: held w) ;; emit (Acquire l)) w.

Definition release (l : lock) : M unit :=
  λ w, (emit (Release l) ;; set_held (filter (λ l', l' ≠ l) (held w))) w.

(** [with l: body]: the lock is released on the way out, also when the
    body raises. *)
Definition release_after {A} (l : lock) (body : M A) : M A :=
  λ w, match body w with
       | (Returned a, w') => (release l ;; mret a) w'
       | (Raised e, w') => (release l ;; raise e) w'
       | (Blocked, w') => (Blocked, w')
       end.

Definition with_lock {A} (l : lock) (body : M A) : M A :=
  acquire l ;; release_after l body.

Definition add_transformed_left (f : string) : M unit :=
  λ w, (Returned tt,
        {| transformed_left := transformed_left w ∪ {[ f ]};
           transformed_right := transformed_right w;
           all_video_combinations := all_video_combinations w;
           held := held w;
           trace := trace w ++ [Add RegLeft f] |}).

Definition add_transformed_right (f : string) : M unit :=
  λ w, (Returned tt,
        {| transformed_left := transformed_left w;
           transformed_right := transformed_right w ∪ {[ f ]};
           all_video_combinations := all_video_combinations w;
           held := held w;
           trace := trace w ++ [Add RegRight f] |}).

Definition get {A} (field : world → A) : M A :=
  λ w, (Returned (field w), w).

Definition read_transformed_left : M (gset string) :=
  emit (Read RegLeft) ;; get transformed_left.

Definition read_transformed_right : M (gset string) :=
  emit (Read RegRight) ;; get transformed_right.


Definition set_all_video_combinations (s batch : gset (string * string)) : M unit :=
  λ w, (Returned tt,
        {| transformed_left := transformed_left w;
           transformed_right := transformed_right w;
           all_video_combinations := s;
           held := held w;
           trace := trace w ++ [Union batch] |}).

(** ** The two tasks (lines 65-117) *)

Section Tasks.

(** The process launcher of this turn. *)
Variable launcher : list string → run_outcome.

Record CompletedProcess := Completed {
  returncode : Z;
  stderr : option string
}.

Definition subprocess_run (cmd : list string) : M CompletedProcess :=
  emit (Launch cmd) ;;
  match launcher cmd with
  | Exited rc err => mret {| returncode := rc; stderr := err |}
  | LaunchFailed why => raise why
  end.

Definition stderr_decode (r : CompletedProcess) : M string :=
  match stderr r with
  | Some s => mret s
  | None => raise "UnicodeDecodeError"
  end.

Definition transform_output_file (input_file side : string) : string :=
  let output_dir :=
    if String.eqb side "left" then output_left_dir else output_right_dir in
  Path.join output_dir (Path.basename input_file).

Definition transform_cmd (input_file side : string) : list string :=
  let crop := if String.eqb side "left" then "crop=iw/2:ih:0:0"
              else "crop=iw/2:ih:iw/2:0" in
  [ "ffmpeg"; "-i"; input_file; "-vf"; crop;
    "-c:v"; "png"; "-pix_fmt"; "rgb24"; "-y";
    transform_output_file input_file side ].

Definition transform_video (input_file : string) (lk : lock) (side : string)
  : M unit :=
  let output_file := transform_output_file input_file side in
  try_except
    (let cmd := transform_cmd input_file side in
     print ("Starting video transformation " +:+ input_file) ;;
     result ← subprocess_run cmd ;
     sleep INTER_DEC_TIME ;;
     if negb (returncode result =? 0)%Z then
       err ← stderr_decode result ;
       print ("Error video transformation " +:+ input_file +:+ ": " +:+ err)
     else
       print ("Finished video transformation " +:+ input_file) ;;
       with_lock lk
         (if String.eqb side "left" then add_transformed_left output_file
          else add_transformed_right output_file))
    (λ e, print ("Exception video transformation " +:+ input_file
                 +:+ ": " +:+ e)).

Definition join_output_basename (input_file_left input_file_right : string)
  : string :=
  Path.chop4 (Path.basename input_file_left)
  +:+ ("_" +:+ Path.basename input_file_right).

Definition join_output_file (input_file_left input_file_right : string)
  : string :=
  Path.join final_output_dir
    (join_output_basename input_file_left input_file_right).

Definition join_cmd (input_file_left input_file_right : string)
  : list string :=
  [ "ffmpeg"; "-i"; input_file_left; "-i"; input_file_right;
    "-filter_complex"; "hstack=inputs=2"; "-y";
    join_output_file input_file_left input_file_right ].

Definition join_videos (input_file_left input_file_right : string) : M unit :=
  let output_file := join_output_file input_file_left input_file_right in
  try_except
    (let cmd := join_cmd input_file_left input_file_right in
     print ("Writing to " +:+ output_file) ;;
     result ← subprocess_run cmd ;
     sleep INTER_ENC_TIME ;;
     if negb (returncode result =? 0)%Z then
       err ← stderr_decode result ;
       print ("Error writing to " +:+ output_file +:+ ": " +:+ err)
     else
       print ("Finished writing to " +:+ output_file))
    (λ e, print ("Exception writing to " +:+ output_file +:+ ": " +:+ e)).

End Tasks.

(** ** The combine pool of one iteration (lines 146-148)

    A future keeps what its task ended with; an exception of the task stays
    inside the future, which nobody asks for its result. The tasks of one
    batch touch nothing but the trace, so running each of them at its
    [submit] is one of the interleavings the pool allows and stands for
    all of them. *)

Record Future := { outcome : result unit }.

Definition completed (f : Future) : bool :=
  match outcome f with
  | Blocked => false
  | _ => true
  end.

Definition submit (task : M unit) : M Future :=
  λ w, let '(r, w') := task w in (Returned {| outcome := r |}, w').

(** [wait(futures, return_when=ALL_COMPLETED)] without a timeout: returns
    [(done, not_done)] once every future has completed. *)
Definition wait (futures : list Future) : M (list Future * list Future) :=
  if forallb completed futures then mret (futures, [])
  else λ w, (Blocked, w).

(** ** The main thread's loop (lines 134-150) *)

Section Driver.

Variables left_videos right_videos : list string.

Definition total_outputs_number : nat :=
  length left_videos * length right_videos.

(** [time.time() - start_enc_time > MAX_ENC_TIME] *)
Definition over_budget (elapsed : Q) : bool :=
  match (elapsed ?= MAX_ENC_TIME)%Q with
  | Gt => true
  | _ => false
  end.

Definition loop_condition (elapsed : Q) (w : world) : bool :=
  (size (all_video_combinations w) <? total_outputs_number)
  || over_budget elapsed.

Definition snapshot_product : M (gset (string * string)) :=
  with_lock lock_transformed_left
    (with_lock lock_transformed_right
       (l ← read_transformed_left ;
        r ← read_transformed_right ;
        let prepared_combinations : gset (string * string) := cprod l r in
        emit (PrintSet prepared_combinations) ;;
        mret prepared_combinations)).

Definition loop_body (launcher : list string → run_outcome) : M unit :=
  prepared_combinations ← snapshot_product ;
  futures ← mapM (λ vt : string * string,
                    submit (join_videos launcher vt.1 vt.2))
                 (elements prepared_combinations) ;
  waited ← wait futures ;
  produced ← get all_video_combinations ;
  set_all_video_combinations (produced ∪ prepared_combinations)
                             prepared_combinations.

End Driver.

(** ** The whole program as a transition system

    The threads take turns. A turn of a pool worker runs one queued
    transform task to its end; a turn of the main thread evaluates the
    [while] condition once and, when it holds, runs the body once. The
    registries are only touched under their locks, so turns of this size
    lose no interleaving that the shared state could tell apart. *)

Record system := System {
  shared : world;
  queue_left : list string;
  queue_right : list string;
  loop_exited : bool
}.

Inductive event :=
| LeftWorker (vf : string) (o : run_outcome)
| RightWorker (vf : string) (o : run_outcome)
| MainThread (elapsed : Q) (launcher : list string → run_outcome).

Fixpoint take_task (vf : string) (queue : list string) : option (list string) :=
  match queue with
  | [] => None
  | x :: rest =>
      if decide (x = vf) then Some rest
      else (x ::.) <$> take_task vf rest
  end.

Section Program.

Variables left_videos right_videos : list string.

(** Lines 127-134: both pools have been handed all their tasks, nothing
    has run yet. *)
Definition initial : system :=
  {| shared := empty_world;
     queue_left := left_videos;
     queue_right := right_videos;
     loop_exited := false |}.

Definition step (e : event) (s : system) : option system :=
  match e with
  | LeftWorker vf o =>
      rest ← take_task vf (queue_left s) ;
      match transform_video (λ _, o) vf lock_transformed_left "left" (shared s) with
      | (Blocked, _) => None
      | (_, w') =>
          Some {| shared := w'; queue_left := rest;
                  queue_right := queue_right s;
                  loop_exited := loop_exited s |}
      end
  | RightWorker vf o =>
      rest ← take_task vf (queue_right s) ;
      match transform_video (λ _, o) vf lock_transformed_right "right" (shared s) with
      | (Blocked, _) => None
      | (_, w') =>
          Some {| shared := w'; queue_left := queue_left s;
                  queue_right := rest;
                  loop_exited := loop_exited s |}
      end
  | MainThread elapsed launcher =>
      if loop_exited s then Some s
      else if loop_condition left_videos right_videos elapsed (shared s) then
        match loop_body launcher (shared s) with
        | (Returned _, w') =>
            Some {| shared := w'; queue_left := queue_left s;
                    queue_right := queue_right s;
                    loop_exited := false |}
        | _ => None
        end
      else
        Some {| shared := shared s; queue_left := queue_left s;
                queue_right := queue_right s;
                loop_exited := true |}
  end.

Fixpoint run (evs : list event) (s : system) : option system :=
  match evs with
  | [] => Some s
  | e :: rest => s' ← step e s ; run rest s'
  end.

End Program.

(** * Observations on traces and states *)

(** ** Reading a trace *)

Definition log (acts : list action) (w : world) : world :=
  {| transformed_left := transformed_left w;
     transformed_right := transformed_right w;
     all_video_combinations := all_video_combinations w;
     held := held w;
     trace := trace w ++ acts |}.

Definition lock_of (r : registry) : lock :=
  match r with
  | RegLeft => lock_transformed_left
  | RegRight => lock_transformed_right
  end.

(** The artifacts inserted into registry [r], oldest first. *)
Fixpoint adds (r : registry) (acts : list action) : list string :=
  match acts with
  | [] => []
  | Add r' f :: rest =>
      if decide (r' = r) then f :: adds r rest else adds r rest
  | _ :: rest => adds r rest
  end.

(** The commands handed to the process launcher, oldest first. *)
Fixpoint launches (acts : list action) : list (list string) :=
  match acts with
  | [] => []
  | Launch cmd :: rest => cmd :: launches rest
  | _ :: rest => launches rest
  end.

(** The lines printed, oldest first. *)
Fixpoint printed (acts : list action) : list string :=
  match acts with
  | [] => []
  | Print line :: rest => line :: printed rest
  | _ :: rest => printed rest
  end.

(** The batches merged into [all_video_combinations], oldest first: one per
    completed iteration of the loop. *)
Fixpoint batches (acts : list action) : list (gset (string * string)) :=
  match acts with
  | [] => []
  | Union batch :: rest => batch :: batches rest
  | _ :: rest => batches rest
  end.

(** A failure of the task described by [what] shows in the printed lines,
    as an error of the process or as a caught exception. *)
Definition failure_logged (what : string) (lines : list string) : Prop :=
  ∃ detail,
    ("Error " +:+ what +:+ ": " +:+ detail) ∈ lines
    ∨ ("Exception " +:+ what +:+ ": " +:+ detail) ∈ lines.

(** Lock discipline: starting with the locks [h] taken, every insertion
    into and every read of a registry happens while its lock is taken. *)
Fixpoint guarded (h : list lock) (acts : list action) : bool :=
  match acts with
  | [] => true
  | Acquire l :: rest => guarded (l :: h) rest
  | Release l :: rest => guarded (filter (λ l', l' ≠ l) h) rest
  | Add r _ :: rest => bool_decide (lock_of r ∈ h) && guarded h rest
  | Read r :: rest => bool_decide (lock_of r ∈ h) && guarded h rest
  | _ :: rest => guarded h rest
  end.

(** Actions that neither touch a registry nor a lock. *)
Definition is_io (a : action) : bool :=
  match a with
  | Print _ | PrintSet _ | Launch _ | Sleep _ => true
  | _ => false
  end.

(** ** Registries, sides and queues *)

Definition reg (r : registry) (w : world) : gset string :=
  match r with
  | RegLeft => transformed_left w
  | RegRight => transformed_right w
  end.

Definition side_registry (side : string) : registry :=
  if String.eqb side "left" then RegLeft else RegRight.

Definition queue (r : registry) (s : system) : list string :=
  match r with
  | RegLeft => queue_left s
  | RegRight => queue_right s
  end.

Definition inputs (left_videos right_videos : list string) (r : registry) : list string :=
  match r with
  | RegLeft => left_videos
  | RegRight => right_videos
  end.

Definition side_name (r : registry) : string :=
  match r with
  | RegLeft => "left"
  | RegRight => "right"
  end.

Definition artifact (r : registry) (vf : string) : string :=
  transform_output_file vf (side_name r).

Definition worker (r : registry) (vf : string) (o : run_outcome) : event :=
  match r with
  | RegLeft => LeftWorker vf o
  | RegRight => RightWorker vf o
  end.

Definition other (r : registry) : registry :=
  match r with
  | RegLeft => RegRight
  | RegRight => RegLeft
  end.

(** What every reachable state satisfies (proved below): no lock is taken
    between turns; a registry holds exactly what was inserted; insertions
    and queued tasks together never exceed the inputs; every counted pair
    was in both registries and had its command launched; and the loop is
    only left with the count reached. *)
Record consistent (left_videos right_videos : list string) (s : system) : Prop := {
  c_locks : held (shared s) = [];
  c_registry : ∀ r,
    reg r (shared s) = list_to_set (adds r (trace (shared s)));
  c_tasks : ∀ r,
    adds r (trace (shared s)) ++ (artifact r <$> queue r s)
      ⊆+ artifact r <$> inputs left_videos right_videos r;
  c_queue : ∀ r, queue r s ⊆+ inputs left_videos right_videos r;
  c_produced :
    all_video_combinations (shared s)
      ⊆ cprod (transformed_left (shared s)) (transformed_right (shared s));
  c_joins : ∀ a b,
    join_cmd a b ∈ launches (trace (shared s))
    ↔ (a, b) ∈ all_video_combinations (shared s);
  c_exit :
    loop_exited s = true → total_outputs_number left_videos right_videos ≤ size (all_video_combinations (shared s))
}.

(** ** Kinds of turns and of schedules *)

Definition is_worker_turn (e : event) : bool :=
  match e with
  | MainThread _ _ => false
  | _ => true
  end.



(** ** Concrete runs *)

Definition exit_zero : run_outcome := Exited 0 (Some "").

(** One video on each side; both transforms succeed before the main thread
    first looks; every iteration of the loop takes 10801 seconds. *)
Definition slow_schedule (n : nat) : event :=
  match n with
  | 0 => LeftWorker "left_dir/video1.mp4" exit_zero
  | 1 => RightWorker "right_dir/video1.mp4" exit_zero
  | S (S k) => MainThread (inject_Z (10801 * Z.of_nat k)) (λ _, exit_zero)
  end.

Definition prefix (n : nat) (schedule : nat → event) : list event :=
  schedule <$> seq 0 n.

Definition demo_left : list string :=
  ["left_dir/video1.mp4"; "left_dir/video2.mp4"].

Definition demo_right : list string := ["right_dir/video1.mp4"].

Definition demo_transforms : list event :=
  [ LeftWorker "left_dir/video1.mp4" exit_zero;
    RightWorker "right_dir/video1.mp4" exit_zero;
    LeftWorker "left_dir/video2.mp4" exit_zero ].

Definition exit_one : run_outcome := Exited 1 (Some "Conversion failed!").

Definition demo_one_failure : list event :=
  [ LeftWorker "left_dir/video1.mp4" exit_zero;
    RightWorker "right_dir/video1.mp4" exit_zero;
    MainThread (1 # 1) (λ _, exit_zero);
    LeftWorker "left_dir/video2.mp4" exit_one;
    MainThread (20000 # 1) (λ _, exit_zero) ].

(** The state a schedule leads to (the initial state when the schedule
    cannot be run). *)
Definition after (L R : list string) (evs : list event) : system :=
  default (initial L R) (run L R evs (initial L R)).

Definition demo_single_left : list string := ["left_dir/video1.mp4"].

Definition demo_single_right : list string := ["right_dir/video1.mp4"].

Definition demo_then : list event :=
  [ RightWorker "right_dir/video1.mp4" exit_zero;
    LeftWorker "left_dir/video2.mp4" (Exited 1 None) ].

(** ** Further observations on traces and schedules *)

(** The locks taken after [acts], starting with the locks [h] taken. *)
Fixpoint held_after (h : list lock) (acts : list action) : list lock :=
  match acts with
  | [] => h
  | Acquire l :: rest => held_after (l :: h) rest
  | Release l :: rest => held_after (filter (λ l', l' ≠ l) h) rest
  | _ :: rest => held_after h rest
  end.


(** A turn that, if it is the main thread's, reads the clock over the
    budget. *)
Definition late_turn (e : event) : bool :=
  match e with
  | MainThread elapsed _ => over_budget elapsed
  | _ => true
  end.

(** * Properties *)

(** ** Paths *)

Module PathFacts.
Import Path.

Lemma rfind_lower p : (-1 ≤ rfind p)%Z.
Proof.
  induction p as [|c r IH]; simpl; [lia|].
  destruct (Z.leb_spec 0 (rfind r)); [lia|].
  destruct (Ascii.eqb c sep); lia.
Qed.

Lemma rfind_plain p : plain p = true → rfind p = (-1)%Z.
Proof.
  induction p as [|c r IH]; simpl; [done|].
  intros [Hc Hr]%andb_prop. rewrite (IH Hr). simpl.
  by destruct (Ascii.eqb c sep).
Qed.

Lemma rfind_not_plain p : plain p = false → (0 ≤ rfind p)%Z.
Proof.
  induction p as [|c r IH]; simpl; [done|].
  destruct (Z.leb_spec 0 (rfind r)) as [Hr|Hr]; [lia|].
  destruct (Ascii.eqb c sep); simpl; [lia|].
  destruct (plain r) eqn:Hp; [done|]. specialize (IH eq_refl). lia.
Qed.

(** [basename] read from the left: the part after the last separator. *)
Lemma basename_cons c r :
  basename (String c r) =
    if plain r then (if Ascii.eqb c sep then r else String c r)
    else basename r.
Proof.
  unfold basename. destruct (plain r) eqn:Hp.
  - simpl. rewrite (rfind_plain r Hp). simpl.
    by destruct (Ascii.eqb c sep).
  - pose proof (rfind_not_plain r Hp) as Hr. simpl.
    destruct (Z.leb_spec 0 (rfind r)); [|lia].
    replace (Z.to_nat (rfind r + 1 + 1)) with (S (Z.to_nat (rfind r + 1)))
      by lia.
    done.
Qed.

Lemma basename_of_plain p : plain p = true → basename p = p.
Proof.
  intros Hp. unfold basename. by rewrite (rfind_plain p Hp).
Qed.

Lemma basename_plain p : plain (basename p) = true.
Proof.
  induction p as [|c r IH]; [done|].
  rewrite basename_cons. destruct (plain r) eqn:Hp; [|done].
  destruct (Ascii.eqb c sep) eqn:Hc; [done|]. simpl. by rewrite Hc, Hp.
Qed.

Lemma plain_app_sep d b : plain (d +:+ String sep b) = false.
Proof.
  induction d as [|c d IH]; simpl; [done|].
  rewrite IH. apply andb_false_r.
Qed.

(** A file name below a directory is its own base name. *)
Lemma basename_in_dir d b :
  plain b = true → basename (d +:+ String sep b) = b.
Proof.
  intros Hb. induction d as [|c d IH].
  - change ("" +:+ String sep b) with (String sep b).
    rewrite basename_cons, Hb. done.
  - change (String c d +:+ String sep b)
      with (String c (d +:+ String sep b)).
    rewrite basename_cons, plain_app_sep. done.
Qed.

Lemma plain_take n s : plain s = true → plain (take n s) = true.
Proof.
  revert s. induction n as [|n IH]; intros [|c r]; simpl; try done.
  intros [Hc Hr]%andb_prop. rewrite Hc. simpl. by apply IH.
Qed.

Lemma plain_chop4 s : plain s = true → plain (chop4 s) = true.
Proof. apply plain_take. Qed.

Lemma plain_app s t : plain (s +:+ t) = plain s && plain t.
Proof.
  induction s as [|c r IH]; simpl; [done|].
  rewrite IH. by rewrite andb_assoc.
Qed.

Lemma plain_startswith s : plain s = true → startswith_sep s = false.
Proof.
  destruct s as [|c r]; simpl; [done|].
  intros [Hc _]%andb_prop. by apply negb_true_iff.
Qed.

(** Joining a directory that is neither empty nor ends in a separator
    with a plain name puts one separator between them. *)
Lemma join_plain d b :
  plain b = true → String.eqb d "" = false → endswith_sep d = false →
  join d b = d +:+ String sep b.
Proof.
  intros Hb Hd He. unfold join.
  by rewrite (plain_startswith b Hb), Hd, He.
Qed.

Lemma app_inj_l (d s t : string) : d +:+ s = d +:+ t → s = t.
Proof. induction d as [|c d IH]; simpl; [done|]. intros [=]. auto. Qed.

End PathFacts.

(** ** What a trace shows *)

Lemma io_adds r acts : forallb is_io acts = true → adds r acts = [].
Proof.
  induction acts as [|[] acts IH]; simpl; try done; auto.
Qed.

Lemma io_guarded h acts rest :
  forallb is_io acts = true → guarded h (acts ++ rest) = guarded h rest.
Proof.
  induction acts as [|[] acts IH]; simpl; try done; auto.
Qed.

Lemma io_batches acts : forallb is_io acts = true → batches acts = [].
Proof.
  induction acts as [|[] acts IH]; simpl; try done; auto.
Qed.

Lemma batches_app a b : batches (a ++ b) = batches a ++ batches b.
Proof. induction a as [|[] a IH]; simpl; try done. by rewrite IH. Qed.

Lemma failure_logged_app_l what a b :
  failure_logged what a → failure_logged what (a ++ b).
Proof. intros [d Hd]. exists d. rewrite !elem_of_app. tauto. Qed.

Lemma failure_logged_app_r what a b :
  failure_logged what b → failure_logged what (a ++ b).
Proof. intros [d Hd]. exists d. rewrite !elem_of_app. tauto. Qed.

Lemma log_nil w : log [] w = w.
Proof. destruct w. unfold log. simpl. by rewrite app_nil_r. Qed.

Lemma log_log a b w : log b (log a w) = log (a ++ b) w.
Proof. unfold log. simpl. by rewrite app_assoc. Qed.

Lemma adds_app r a b : adds r (a ++ b) = adds r a ++ adds r b.
Proof.
  induction a as [|[] a IH]; simpl; try done.
  case_decide; simpl; by rewrite IH.
Qed.

Lemma launches_app a b : launches (a ++ b) = launches a ++ launches b.
Proof. induction a as [|[] a IH]; simpl; try done. by rewrite IH. Qed.

Lemma printed_app a b : printed (a ++ b) = printed a ++ printed b.
Proof. induction a as [|[] a IH]; simpl; try done. by rewrite IH. Qed.

Lemma filter_other_lock (l : lock) (h : list lock) :
  l ∉ h → filter (λ l', l' ≠ l) h = h.
Proof.
  induction h as [|x h IH]; [done|].
  intros Hn. apply not_elem_of_cons in Hn as [Hx Hh].
  rewrite filter_cons_True by done. by rewrite IH.
Qed.

Lemma release_just_taken (l : lock) (h : list lock) :
  l ∉ h → filter (λ l', l' ≠ l) (l :: h) = h.
Proof.
  intros Hn. rewrite filter_cons_False by (intros ?; done).
  by apply filter_other_lock.
Qed.

(** ** The transform task *)

Section TransformFacts.

Variable launcher : list string → run_outcome.
Variables (input_file : string) (lk : lock) (side : string).
Variable w : world.
Hypothesis lock_free : lk ∉ held w.

Let cmd := transform_cmd input_file side.
Let output_file := transform_output_file input_file side.

Lemma transform_video_exit_zero err :
  launcher cmd = Exited 0 err →
  transform_video launcher input_file lk side w =
    (Returned (),
     {| transformed_left :=
          if String.eqb side "left" then transformed_left w ∪ {[ output_file ]}
          else transformed_left w;
        transformed_right :=
          if String.eqb side "left" then transformed_right w
          else transformed_right w ∪ {[ output_file ]};
        all_video_combinations := all_video_combinations w;
        held := held w;
        trace := trace w ++
          [ Print ("Starting video transformation " +:+ input_file);
            Launch cmd;
            Sleep INTER_DEC_TIME;
            Print ("Finished video transformation " +:+ input_file);
            Acquire lk;
            Add (if String.eqb side "left" then RegLeft else RegRight)
                output_file;
            Release lk ] |}).
Proof.
  intros Hrun.
  unfold transform_video, try_except, subprocess_run, print, sleep,
    with_lock, release_after, acquire, release, mbind, M_bind, mret, M_mret,
    emit, set_held.
  simpl. fold cmd. rewrite Hrun. simpl.
  destruct (decide (lk ∈ held w)) as [|_]; [done|].
  destruct (String.eqb side "left"); simpl;
    rewrite release_just_taken by done;
    repeat (rewrite <- app_assoc; simpl); done.
Qed.

Lemma transform_video_exit_nonzero rc err :
  rc ≠ 0%Z → launcher cmd = Exited rc (Some err) →
  transform_video launcher input_file lk side w =
    (Returned (),
     log [ Print ("Starting video transformation " +:+ input_file);
           Launch cmd;
           Sleep INTER_DEC_TIME;
           Print ("Error video transformation " +:+ input_file
                  +:+ ": " +:+ err) ] w).
Proof.
  intros Hrc Hrun.
  unfold transform_video, try_except, subprocess_run, stderr_decode, print,
    sleep, mbind, M_bind, mret, M_mret, emit, log.
  simpl. fold cmd. rewrite Hrun. simpl.
  apply Z.eqb_neq in Hrc. rewrite Hrc. simpl.
  repeat (rewrite <- app_assoc; simpl). done.
Qed.

Lemma transform_video_exit_undecodable rc :
  rc ≠ 0%Z → launcher cmd = Exited rc None →
  transform_video launcher input_file lk side w =
    (Returned (),
     log [ Print ("Starting video transformation " +:+ input_file);
           Launch cmd;
           Sleep INTER_DEC_TIME;
           Print ("Exception video transformation " +:+ input_file
                  +:+ ": " +:+ "UnicodeDecodeError") ] w).
Proof.
  intros Hrc Hrun.
  unfold transform_video, try_except, subprocess_run, stderr_decode, print,
    sleep, raise, mbind, M_bind, mret, M_mret, emit, log.
  simpl. fold cmd. rewrite Hrun. simpl.
  apply Z.eqb_neq in Hrc. rewrite Hrc. simpl.
  repeat (rewrite <- app_assoc; simpl). done.
Qed.

Lemma transform_video_launch_failed why :
  launcher cmd = LaunchFailed why →
  transform_video launcher input_file lk side w =
    (Returned (),
     log [ Print ("Starting video transformation " +:+ input_file);
           Launch cmd;
           Print ("Exception video transformation " +:+ input_file
                  +:+ ": " +:+ why) ] w).
Proof.
  intros Hrun.
  unfold transform_video, try_except, subprocess_run, print,
    raise, mbind, M_bind, mret, M_mret, emit, log.
  simpl. fold cmd. rewrite Hrun. simpl.
  repeat (rewrite <- app_assoc; simpl). done.
Qed.

End TransformFacts.

(** ** The combine task *)

Section JoinFacts.

Variable launcher : list string → run_outcome.
Variables input_file_left input_file_right : string.
Variable w : world.

Let cmd := join_cmd input_file_left input_file_right.
Let output_file := join_output_file input_file_left input_file_right.

Lemma join_videos_exit_zero err :
  launcher cmd = Exited 0 err →
  join_videos launcher input_file_left input_file_right w =
    (Returned (),
     log [ Print ("Writing to " +:+ output_file);
           Launch cmd;
           Sleep INTER_ENC_TIME;
           Print ("Finished writing to " +:+ output_file) ] w).
Proof.
  intros Hrun.
  unfold join_videos, try_except, subprocess_run, print, sleep,
    mbind, M_bind, mret, M_mret, emit, log.
  simpl. fold cmd. rewrite Hrun. simpl.
  repeat (rewrite <- app_assoc; simpl). done.
Qed.

Lemma join_videos_exit_nonzero rc err :
  rc ≠ 0%Z → launcher cmd = Exited rc (Some err) →
  join_videos launcher input_file_left input_file_right w =
    (Returned (),
     log [ Print ("Writing to " +:+ output_file);
           Launch cmd;
           Sleep INTER_ENC_TIME;
           Print ("Error writing to " +:+ output_file +:+ ": " +:+ err) ] w).
Proof.
  intros Hrc Hrun.
  unfold join_videos, try_except, subprocess_run, stderr_decode, print,
    sleep, mbind, M_bind, mret, M_mret, emit, log.
  simpl. fold cmd. rewrite Hrun. simpl.
  apply Z.eqb_neq in Hrc. rewrite Hrc. simpl.
  repeat (rewrite <- app_assoc; simpl). done.
Qed.

Lemma join_videos_exit_undecodable rc :
  rc ≠ 0%Z → launcher cmd = Exited rc None →
  join_videos launcher input_file_left input_file_right w =
    (Returned (),
     log [ Print ("Writing to " +:+ output_file);
           Launch cmd;
           Sleep INTER_ENC_TIME;
           Print ("Exception writing to " +:+ output_file
                  +:+ ": " +:+ "UnicodeDecodeError") ] w).
Proof.
  intros Hrc Hrun.
  unfold join_videos, try_except, subprocess_run, stderr_decode, print,
    sleep, raise, mbind, M_bind, mret, M_mret, emit, log.
  simpl. fold cmd. rewrite Hrun. simpl.
  apply Z.eqb_neq in Hrc. rewrite Hrc. simpl.
  repeat (rewrite <- app_assoc; simpl). done.
Qed.

Lemma join_videos_launch_failed why :
  launcher cmd = LaunchFailed why →
  join_videos launcher input_file_left input_file_right w =
    (Returned (),
     log [ Print ("Writing to " +:+ output_file);
           Launch cmd;
           Print ("Exception writing to " +:+ output_file
                  +:+ ": " +:+ why) ] w).
Proof.
  intros Hrun.
  unfold join_videos, try_except, subprocess_run, print,
    raise, mbind, M_bind, mret, M_mret, emit, log.
  simpl. fold cmd. rewrite Hrun. simpl.
  repeat (rewrite <- app_assoc; simpl). done.
Qed.

(** Whatever the launcher answers, the task returns, launches its command
    exactly once and leaves the sets and the locks alone. *)
Lemma join_videos_returns :
  ∃ acts,
    join_videos launcher input_file_left input_file_right w
      = (Returned (), log acts w)
    ∧ launches acts = [cmd]
    ∧ forallb is_io acts = true
    ∧ (succeeded (launcher cmd) = false →
       failure_logged ("writing to " +:+ output_file) (printed acts)).
Proof.
  destruct (launcher cmd) as [rc [err|]|why] eqn:Hrun.
  - destruct (decide (rc = 0%Z)) as [->|Hrc].
    + eexists. split; [by eapply join_videos_exit_zero|done].
    + eexists. split; [by eapply join_videos_exit_nonzero|].
      do 2 (split; [done|]). intros _. exists err. left. set_solver.
  - destruct (decide (rc = 0%Z)) as [->|Hrc].
    + eexists. split; [by eapply join_videos_exit_zero|done].
    + eexists. split; [by eapply join_videos_exit_undecodable|].
      do 2 (split; [done|]). intros _. exists "UnicodeDecodeError".
      right. set_solver.
  - eexists. split; [by eapply join_videos_launch_failed|].
    do 2 (split; [done|]). intros _. exists why. right. set_solver.
Qed.

End JoinFacts.

(** ** Sizes of Cartesian products *)

Lemma size_pairs_with (x : string) (Y : gset string) :
  size (set_map (C:=gset string) (D:=gset (string * string)) (x,.) Y) = size Y.
Proof.
  induction Y as [|y Y Hy IH] using set_ind_L.
  - by rewrite set_map_empty, !size_empty.
  - rewrite set_map_union_L, set_map_singleton_L.
    rewrite !size_union, !size_singleton, IH by set_solver. done.
Qed.

Lemma size_cprod (X Y : gset string) :
  size (cprod X Y : gset (string * string)) = size X * size Y.
Proof.
  induction X as [|x X Hx IH] using set_ind_L.
  - rewrite size_empty. simpl. apply size_empty_iff. set_solver.
  - assert (cprod ({[x]} ∪ X) Y
            = (set_map (D:=gset (string * string)) (x,.) Y) ∪ cprod X Y) as ->.
    { apply set_eq. intros [a b]. set_solver. }
    rewrite size_union.
    + rewrite size_pairs_with, IH, size_union, size_singleton by set_solver.
      lia.
    + intros [a b]. set_solver.
Qed.

Lemma cprod_mono (X X' Y Y' : gset string) :
  X ⊆ X' → Y ⊆ Y' →
  (cprod X Y : gset (string * string)) ⊆ cprod X' Y'.
Proof. intros HX HY [a b]. set_solver. Qed.

(** ** One batch and one iteration of the loop *)

Lemma bind_run {A B} (m : M A) (k : A → M B) w a w' :
  m w = (Returned a, w') → (m ≫= k) w = k a w'.
Proof. intros Hm. unfold mbind, M_bind. by rewrite Hm. Qed.

Lemma batch_returns launcher (pairs : list (string * string)) w :
  ∃ futures acts,
    mapM (λ vt : string * string, submit (join_videos launcher vt.1 vt.2))
         pairs w
      = (Returned futures, log acts w)
    ∧ forallb completed futures = true
    ∧ length futures = length pairs
    ∧ launches acts = (λ vt, join_cmd vt.1 vt.2) <$> pairs
    ∧ forallb is_io acts = true
    ∧ (∀ a b, (a, b) ∈ pairs →
              succeeded (launcher (join_cmd a b)) = false →
              failure_logged ("writing to " +:+ join_output_file a b)
                             (printed acts)).
Proof.
  revert w. induction pairs as [|[a b] pairs IH]; intros w.
  - exists [], []. rewrite log_nil. do 5 (split; [done|]).
    by intros a b ?%elem_of_nil.
  - destruct (join_videos_returns launcher a b w)
      as (acts1 & Hj & Hl1 & Hio1 & Hf1).
    destruct (IH (log acts1 w))
      as (fs & acts2 & Hm & Hc & Hlen & Hl2 & Hio2 & Hf2).
    exists ({| outcome := Returned () |} :: fs), (acts1 ++ acts2).
    split; [|split; [|split; [|split; [|split]]]].
    + change (mapM ?f (?x :: ?l)) with (y ← f x; k ← mapM f l; mret (y :: k)).
      erewrite bind_run; [|unfold submit; cbn [fst snd]; by rewrite Hj].
      erewrite bind_run by exact Hm.
      unfold mret, M_mret. by rewrite log_log.
    + simpl. done.
    + simpl. by rewrite Hlen.
    + rewrite launches_app, Hl1, Hl2. done.
    + rewrite forallb_app. by rewrite Hio1, Hio2.
    + intros a' b' Hin Hfail. rewrite printed_app.
      apply elem_of_cons in Hin as [[= -> ->]|Hin].
      * apply failure_logged_app_l. by apply Hf1.
      * apply failure_logged_app_r. by eapply Hf2.
Qed.

Lemma snapshot_product_returns w :
  held w = [] →
  snapshot_product w =
    (Returned (cprod (transformed_left w) (transformed_right w)),
     log [ Acquire lock_transformed_left; Acquire lock_transformed_right;
           Read RegLeft; Read RegRight;
           PrintSet (cprod (transformed_left w) (transformed_right w));
           Release lock_transformed_right; Release lock_transformed_left ] w).
Proof.
  destruct w as [tl tr produced h t]. simpl. intros ->.
  unfold snapshot_product, with_lock, release_after, acquire, release,
    read_transformed_left, read_transformed_right, get, raise,
    mbind, M_bind, mret, M_mret, emit, set_held, log.
  simpl. repeat (rewrite <- app_assoc; simpl). done.
Qed.

Lemma loop_body_returns launcher w :
  held w = [] →
  ∃ acts,
    loop_body launcher w =
      (Returned (),
       {| transformed_left := transformed_left w;
          transformed_right := transformed_right w;
          all_video_combinations :=
            all_video_combinations w
            ∪ cprod (transformed_left w) (transformed_right w);
          held := [];
          trace := trace w ++
            [ Acquire lock_transformed_left; Acquire lock_transformed_right;
              Read RegLeft; Read RegRight;
              PrintSet (cprod (transformed_left w) (transformed_right w));
              Release lock_transformed_right; Release lock_transformed_left ]
            ++ acts
            ++ [ Union (cprod (transformed_left w) (transformed_right w)) ] |})
    ∧ launches acts =
        (λ vt, join_cmd vt.1 vt.2)
          <$> elements (cprod (transformed_left w) (transformed_right w)
                        : gset (string * string))
    ∧ forallb is_io acts = true
    ∧ (∀ a b, a ∈ transformed_left w → b ∈ transformed_right w →
              succeeded (launcher (join_cmd a b)) = false →
              failure_logged ("writing to " +:+ join_output_file a b)
                             (printed acts)).
Proof.
  intros Hh.
  set (P := cprod (transformed_left w) (transformed_right w)
            : gset (string * string)).
  set (pre := [ Acquire lock_transformed_left; Acquire lock_transformed_right;
                Read RegLeft; Read RegRight; PrintSet P;
                Release lock_transformed_right; Release lock_transformed_left ]).
  destruct (batch_returns launcher (elements P) (log pre w))
    as (fs & acts & Hm & Hc & _ & Hl & Hio & Hf).
  exists acts. split; [|split; [done|split; [done|]]]; cycle 1.
  { intros a b Ha Hb. apply Hf. apply elem_of_elements. unfold P.
    by apply elem_of_gset_cprod. }
  unfold loop_body.
  erewrite bind_run by (by apply snapshot_product_returns).
  fold P. fold pre.
  erewrite bind_run by exact Hm.
  erewrite bind_run by (unfold wait; by rewrite Hc).
  erewrite bind_run by done.
  unfold set_all_video_combinations, log.
  simpl. rewrite Hh. by rewrite <- !app_assoc.
Qed.

(** ** One turn of a worker, seen from the shared state *)

Lemma succeeded_true o : succeeded o = true → ∃ err, o = Exited 0 err.
Proof.
  destruct o as [rc err|]; simpl; [|done].
  intros ->%Z.eqb_eq. eauto.
Qed.

Lemma transform_video_failed launcher vf lk side w :
  succeeded (launcher (transform_cmd vf side)) = false →
  ∃ acts,
    transform_video launcher vf lk side w = (Returned (), log acts w)
    ∧ launches acts = [transform_cmd vf side]
    ∧ forallb is_io acts = true
    ∧ failure_logged ("video transformation " +:+ vf) (printed acts).
Proof.
  intros Hfail.
  destruct (launcher (transform_cmd vf side)) as [rc [err|]|why] eqn:Hrun;
    simpl in Hfail.
  - apply Z.eqb_neq in Hfail. eexists.
    split; [exact (transform_video_exit_nonzero launcher vf lk side w
                     rc err Hfail Hrun)|].
    do 2 (split; [done|]). exists err. left. set_solver.
  - apply Z.eqb_neq in Hfail. eexists.
    split; [exact (transform_video_exit_undecodable launcher vf lk side w
                     rc Hfail Hrun)|].
    do 2 (split; [done|]). exists "UnicodeDecodeError". right. set_solver.
  - eexists.
    split; [exact (transform_video_launch_failed launcher vf lk side w
                     why Hrun)|].
    do 2 (split; [done|]). exists why. right. set_solver.
Qed.

Lemma worker_turn launcher vf lk side w :
  held w = [] →
  ∃ w' acts,
    transform_video launcher vf lk side w = (Returned (), w')
    ∧ trace w' = trace w ++ acts
    ∧ held w' = []
    ∧ all_video_combinations w' = all_video_combinations w
    ∧ launches acts = [transform_cmd vf side]
    ∧ batches acts = []
    ∧ (∀ r, reg r w' = reg r w ∪ list_to_set (adds r acts))
    ∧ (∀ r, adds r acts =
            if succeeded (launcher (transform_cmd vf side))
               && bool_decide (r = side_registry side)
            then [transform_output_file vf side] else []).
Proof.
  intros Hh.
  destruct (succeeded (launcher (transform_cmd vf side))) eqn:Hok.
  - destruct (succeeded_true _ Hok) as [err Hrun].
    eexists _, _. split.
    { apply (transform_video_exit_zero launcher vf lk side w) with (err := err);
        [|exact Hrun].
      rewrite Hh. apply not_elem_of_nil. }
    simpl. unfold side_registry.
    do 5 (split; [done|]).
    split; intros r; destruct (String.eqb side "left"), r; simpl;
      set_solver.
  - destruct (transform_video_failed launcher vf lk side w Hok)
      as (acts & Hrun & Hl & Hio & _).
    eexists _, acts. split; [exact Hrun|].
    simpl. do 4 (split; [done|]). split; [by apply io_batches|].
    split; intros r; rewrite (io_adds r acts Hio); [|done].
    destruct r; simpl; set_solver.
Qed.

(** ** Commands tell the two pipelines and their arguments apart *)

Lemma join_cmd_inj a b a' b' : join_cmd a b = join_cmd a' b' → a = a' ∧ b = b'.
Proof. unfold join_cmd. intros [=]. done. Qed.

Lemma join_cmd_not_transform a b vf side : join_cmd a b ≠ transform_cmd vf side.
Proof. unfold join_cmd, transform_cmd. intros [=]. Qed.

(** ** Queues *)

Lemma take_task_perm vf q rest : take_task vf q = Some rest → q ≡ₚ vf :: rest.
Proof.
  revert rest. induction q as [|x q IH]; intros rest; simpl; [done|].
  case_decide as Hx.
  - intros [= <-]. by subst.
  - destruct (take_task vf q) as [rest'|] eqn:Ht; simpl; [|done].
    intros [= <-]. rewrite (IH rest' eq_refl). apply Permutation_swap.
Qed.

Lemma take_task_enabled vf q : vf ∈ q → is_Some (take_task vf q).
Proof.
  induction q as [|x q IH]; [by intros ?%elem_of_nil|].
  intros Hin. simpl. case_decide as Hx; [by eexists|].
  apply elem_of_cons in Hin as [->|Hin]; [done|].
  destruct (IH Hin) as [rest ->]. by eexists.
Qed.

(** ** Turns of the whole program *)

Section Turns.

Variables left_videos right_videos : list string.

Lemma step_worker r vf o s s' :
  held (shared s) = [] →
  step left_videos right_videos (worker r vf o) s = Some s' →
  ∃ acts,
    trace (shared s') = trace (shared s) ++ acts
    ∧ held (shared s') = []
    ∧ (∀ r', reg r' (shared s')
             = reg r' (shared s) ∪ list_to_set (adds r' acts))
    ∧ all_video_combinations (shared s') = all_video_combinations (shared s)
    ∧ loop_exited s' = loop_exited s
    ∧ take_task vf (queue r s) = Some (queue r s')
    ∧ queue (other r) s' = queue (other r) s
    ∧ launches acts = [transform_cmd vf (side_name r)]
    ∧ batches acts = []
    ∧ (∀ r', adds r' acts =
             if succeeded o && bool_decide (r' = r)
             then [artifact r vf] else []).
Proof.
  intros Hh Hstep.
  destruct r; simpl in Hstep.
  - destruct (take_task vf (queue_left s)) as [rest|] eqn:Hq;
      simpl in Hstep; [|done].
    destruct (worker_turn (λ _, o) vf lock_transformed_left "left"
                (shared s) Hh)
      as (w' & acts & Hrun & Ht & Hh' & Hall & Hl & Hb & Hreg & Hadds).
    rewrite Hrun in Hstep. injection Hstep as <-. simpl.
    exists acts. done.
  - destruct (take_task vf (queue_right s)) as [rest|] eqn:Hq;
      simpl in Hstep; [|done].
    destruct (worker_turn (λ _, o) vf lock_transformed_right "right"
                (shared s) Hh)
      as (w' & acts & Hrun & Ht & Hh' & Hall & Hl & Hb & Hreg & Hadds).
    rewrite Hrun in Hstep. injection Hstep as <-. simpl.
    exists acts. done.
Qed.


#[local] Abbreviation guard := (loop_condition left_videos right_videos).

Lemma step_main_exited elapsed launcher s :
  loop_exited s = true →
  step left_videos right_videos (MainThread elapsed launcher) s = Some s.
Proof. intros He. simpl. by rewrite He. Qed.

Lemma step_main_leaves elapsed launcher s :
  loop_exited s = false → guard elapsed (shared s) = false →
  step left_videos right_videos (MainThread elapsed launcher) s =
    Some {| shared := shared s; queue_left := queue_left s;
            queue_right := queue_right s; loop_exited := true |}.
Proof. intros He Hg. simpl. by rewrite He, Hg. Qed.

Lemma step_main_iterates elapsed launcher s :
  held (shared s) = [] →
  loop_exited s = false → guard elapsed (shared s) = true →
  ∃ s' acts,
    step left_videos right_videos (MainThread elapsed launcher) s = Some s'
    ∧ trace (shared s') = trace (shared s) ++
        [ Acquire lock_transformed_left; Acquire lock_transformed_right;
          Read RegLeft; Read RegRight;
          PrintSet (cprod (transformed_left (shared s))
                          (transformed_right (shared s)));
          Release lock_transformed_right; Release lock_transformed_left ]
        ++ acts
        ++ [ Union (cprod (transformed_left (shared s))
                          (transformed_right (shared s))) ]
    ∧ launches acts =
        (λ vt, join_cmd vt.1 vt.2)
          <$> elements (cprod (transformed_left (shared s))
                              (transformed_right (shared s))
                        : gset (string * string))
    ∧ forallb is_io acts = true
    ∧ (∀ a b, a ∈ transformed_left (shared s) →
              b ∈ transformed_right (shared s) →
              succeeded (launcher (join_cmd a b)) = false →
              failure_logged ("writing to " +:+ join_output_file a b)
                             (printed acts))
    ∧ held (shared s') = []
    ∧ transformed_left (shared s') = transformed_left (shared s)
    ∧ transformed_right (shared s') = transformed_right (shared s)
    ∧ all_video_combinations (shared s') =
        all_video_combinations (shared s)
        ∪ cprod (transformed_left (shared s)) (transformed_right (shared s))
    ∧ queue_left s' = queue_left s
    ∧ queue_right s' = queue_right s
    ∧ loop_exited s' = false.
Proof.
  intros Hh He Hg.
  destruct (loop_body_returns launcher (shared s) Hh)
    as (acts & Hb & Hl & Hio & Hf).
  eexists _, acts. split.
  { simpl. rewrite He, Hg, Hb. done. }
  simpl. done.
Qed.

End Turns.

(** ** What every reachable state satisfies *)

Section Reachable.

Variables left_videos right_videos : list string.

#[local] Abbreviation inputs' := (inputs left_videos right_videos).
#[local] Abbreviation step' := (step left_videos right_videos).
#[local] Abbreviation run' := (run left_videos right_videos).
#[local] Abbreviation start := (initial left_videos right_videos).
#[local] Abbreviation total := (total_outputs_number left_videos right_videos).

Lemma initial_consistent : consistent left_videos right_videos start.
Proof.
  split; simpl.
  - done.
  - by intros [].
  - by intros [].
  - by intros [].
  - set_solver.
  - intros a b. set_solver.
  - done.
Qed.

Lemma worker_event e :
  (∃ r vf o, e = worker r vf o) ∨ (∃ elapsed launcher, e = MainThread elapsed launcher).
Proof.
  destruct e as [vf o|vf o|elapsed launcher].
  - left. by exists RegLeft, vf, o.
  - left. by exists RegRight, vf, o.
  - right. eauto.
Qed.

Lemma step_consistent e s s' :
  consistent left_videos right_videos s → step' e s = Some s' → consistent left_videos right_videos s'.
Proof.
  intros [Hh Hreg Htasks Hqueue Hprod Hjoins Hexit] Hstep.
  destruct (worker_event e) as [(r & vf & o & ->)|(elapsed & launcher & ->)].
  - destruct (step_worker _ _ r vf o s s' Hh Hstep)
      as (acts & Ht & Hh' & Hreg' & Hall & Hex & Hq & Hqo & Hl & _ & Hadds).
    split.
    + done.
    + intros r'. rewrite Hreg', Ht, adds_app, Hreg.
      by rewrite list_to_set_app_L.
    + intros r'. rewrite Ht, adds_app, Hadds.
      apply take_task_perm in Hq.
      destruct (decide (r' = r)) as [->|Hne].
      * rewrite bool_decide_eq_true_2 by done.
        etrans; [|apply (Htasks r)]. rewrite Hq.
        destruct (succeeded o); simpl.
        -- rewrite <- app_assoc. simpl. done.
        -- rewrite app_nil_r.
           apply submseteq_app; [done|]. by apply submseteq_cons.
      * rewrite bool_decide_eq_false_2 by done.
        rewrite andb_false_r, app_nil_r.
        assert (r' = other r) as -> by (by destruct r, r').
        rewrite Hqo. apply Htasks.
    + intros r'. apply take_task_perm in Hq.
      destruct (decide (r' = r)) as [->|Hne].
      * etrans; [|apply (Hqueue r)]. rewrite Hq. by apply submseteq_cons.
      * assert (r' = other r) as -> by (by destruct r, r').
        rewrite Hqo. apply Hqueue.
    + rewrite Hall. etrans; [exact Hprod|].
      apply cprod_mono.
      * specialize (Hreg' RegLeft). simpl in Hreg'. set_solver.
      * specialize (Hreg' RegRight). simpl in Hreg'. set_solver.
    + intros a b. rewrite Ht, launches_app, Hl, Hall, <- Hjoins.
      rewrite elem_of_app, list_elem_of_singleton.
      split; [|by left]. intros [?|Heq]; [done|].
      by apply join_cmd_not_transform in Heq.
    + rewrite Hex, Hall. done.
  - destruct (loop_exited s) eqn:He.
    { rewrite step_main_exited in Hstep by done.
      injection Hstep as <-. split; try done. by rewrite He. }
    destruct (loop_condition left_videos right_videos elapsed (shared s))
      eqn:Hg.
    + destruct (step_main_iterates _ _ elapsed launcher s Hh He Hg)
        as (s2 & acts & Hs & Ht & Hl & Hio & _ & Hh' & Hl' & Hr' & Hall
            & Hql & Hqr & He').
      rewrite Hs in Hstep. injection Hstep as ->.
      assert (∀ r, adds r (trace (shared s')) = adds r (trace (shared s)))
        as Hsame.
      { intros r. rewrite Ht, !adds_app, (io_adds r acts Hio).
        destruct r; simpl; by rewrite app_nil_r. }
      split.
      * done.
      * intros r. rewrite Hsame, <- Hreg. by destruct r.
      * intros r. rewrite Hsame.
        assert (queue r s' = queue r s) as -> by (by destruct r).
        apply Htasks.
      * intros r.
        assert (queue r s' = queue r s) as -> by (by destruct r).
        apply Hqueue.
      * rewrite Hall, Hl', Hr'. set_solver.
      * intros a b. rewrite Ht, !launches_app, Hl, Hall. simpl.
        rewrite !app_nil_r, elem_of_app, elem_of_union, Hjoins.
        apply or_iff_compat_l. rewrite list_elem_of_fmap. split.
        -- intros ([a' b'] & Heq & Hin). apply join_cmd_inj in Heq as [-> ->].
           by apply elem_of_elements in Hin.
        -- intros Hin. exists (a, b). split; [done|].
           by apply elem_of_elements.
      * by rewrite He'.
    + rewrite step_main_leaves in Hstep by done.
      injection Hstep as <-. split; try done. simpl. intros _.
      unfold loop_condition in Hg. apply orb_false_iff in Hg as [Hg _].
      apply Nat.ltb_ge in Hg. done.
Qed.

Lemma run_consistent evs s s' :
  consistent left_videos right_videos s → run' evs s = Some s' → consistent left_videos right_videos s'.
Proof.
  revert s. induction evs as [|e evs IH]; intros s Hc; simpl.
  - by intros [= <-].
  - destruct (step' e s) as [s1|] eqn:Hs; simpl; [|done].
    apply IH. by eapply step_consistent.
Qed.

Lemma reachable_consistent evs s : run' evs start = Some s → consistent left_videos right_videos s.
Proof. apply run_consistent, initial_consistent. Qed.

End Reachable.


(** ** Names of artifacts and of combined outputs *)

Lemma artifact_name r vf :
  artifact r vf =
    (match r with
     | RegLeft => "transformed_left_videos/"
     | RegRight => "transformed_right_videos/"
     end) +:+ Path.basename vf.
Proof.
  unfold artifact, transform_output_file.
  destruct r; simpl;
    rewrite PathFacts.join_plain by (try done; apply PathFacts.basename_plain);
    done.
Qed.

Lemma artifact_basename r vf : Path.basename (artifact r vf) = Path.basename vf.
Proof.
  unfold artifact, transform_output_file.
  destruct r; simpl;
    rewrite PathFacts.join_plain by (try done; apply PathFacts.basename_plain);
    apply PathFacts.basename_in_dir, PathFacts.basename_plain.
Qed.

Lemma artifact_inj r vf vf' :
  artifact r vf = artifact r vf' → Path.basename vf = Path.basename vf'.
Proof. intros Heq. by rewrite <- (artifact_basename r vf), Heq, artifact_basename. Qed.

Lemma join_output_basename_plain l r :
  Path.plain (join_output_basename l r) = true.
Proof.
  unfold join_output_basename.
  rewrite !PathFacts.plain_app, PathFacts.plain_chop4, PathFacts.basename_plain
    by apply PathFacts.basename_plain.
  done.
Qed.

(** C6 (as amended): the combined output is written below [video_output]
    under the left base name without its last four characters (the
    extension), an underscore, and the right base name, left first; for the
    artifacts that the transform tasks register, these are the base names of
    the two input files. For the left artifacts A.int and B.int and the right
    artifact X.int the names are A_X.int and B_X.int. *)
Theorem join_output_name_chops_left_extension :
  (∀ l r,
     join_output_file l r =
       "video_output/" +:+ Path.chop4 (Path.basename l)
       +:+ "_" +:+ Path.basename r)
  ∧ (∀ vl vr,
       join_output_file (artifact RegLeft vl) (artifact RegRight vr) =
         "video_output/" +:+ Path.chop4 (Path.basename vl)
         +:+ "_" +:+ Path.basename vr)
  ∧ join_output_basename "A.int" "X.int" = "A_X.int"
  ∧ join_output_basename "B.int" "X.int" = "B_X.int".
Proof.
  assert (∀ l r,
     join_output_file l r =
       "video_output/" +:+ Path.chop4 (Path.basename l)
       +:+ "_" +:+ Path.basename r) as Hname.
  { intros l r. unfold join_output_file.
    rewrite PathFacts.join_plain
      by (try done; apply join_output_basename_plain).
    done. }
  split; [exact Hname|]. split; [|done].
  intros vl vr. by rewrite Hname, !artifact_basename.
Qed.

(** C6 (as stated) fails: the left base name does not appear whole in the
    output name. *)
Lemma join_output_name_is_not_plain_concatenation :
  join_output_basename "A.int" "X.int" ≠ "A.int" +:+ "_" +:+ "X.int"
  ∧ join_output_basename "B.int" "X.int" ≠ "B.int" +:+ "_" +:+ "X.int"
  ∧ join_output_file "transformed_left_videos/A.int"
                     "transformed_right_videos/X.int"
    = "video_output/A_X.int".
Proof. split; [|split]; [by vm_compute..|by vm_compute]. Qed.

(** ** Runs *)

Lemma run_app L R evs1 evs2 s :
  run L R (evs1 ++ evs2) s = (s1 ← run L R evs1 s; run L R evs2 s1).
Proof.
  revert s. induction evs1 as [|e evs1 IH]; intros s; simpl; [done|].
  destruct (step L R e s); simpl; [apply IH|done].
Qed.

Lemma step_worker_run L R r vf o s rest w' res :
  take_task vf (queue r s) = Some rest →
  transform_video (λ _, o) vf (lock_of r) (side_name r) (shared s)
    = (Returned res, w') →
  step L R (worker r vf o) s =
    Some {| shared := w';
            queue_left := match r with RegLeft => rest | _ => queue_left s end;
            queue_right := match r with RegRight => rest | _ => queue_right s end;
            loop_exited := loop_exited s |}.
Proof.
  intros Hq Hrun. destruct r; simpl in *; rewrite Hq; simpl; by rewrite Hrun.
Qed.

(** C7: a queued transform task always returns to its pool, whatever the
    launcher answers. When the process fails (non-zero exit, or no launch
    at all) the failure is printed and neither registry changes; nothing
    else of the program is disturbed. When it succeeds, the artifact is
    inserted into the registry of the task's side between acquiring and
    releasing that side's lock. *)
Theorem transform_failure_is_contained L R evs s r vf o :
  run L R evs (initial L R) = Some s →
  vf ∈ queue r s →
  ∃ w' acts s',
    transform_video (λ _, o) vf (lock_of r) (side_name r) (shared s)
      = (Returned (), w')
    ∧ step L R (worker r vf o) s = Some s'
    ∧ shared s' = w'
    ∧ loop_exited s' = loop_exited s
    ∧ queue (other r) s' = queue (other r) s
    ∧ trace w' = trace (shared s) ++ acts
    ∧ guarded [] acts = true
    ∧ all_video_combinations w' = all_video_combinations (shared s)
    ∧ reg (other r) w' = reg (other r) (shared s)
    ∧ if succeeded o then
        reg r w' = reg r (shared s) ∪ {[ artifact r vf ]}
        ∧ ∃ pre, acts = pre ++ [ Acquire (lock_of r);
                                 Add r (artifact r vf);
                                 Release (lock_of r) ]
                 ∧ forallb is_io pre = true
      else
        reg r w' = reg r (shared s)
        ∧ forallb is_io acts = true
        ∧ failure_logged ("video transformation " +:+ vf) (printed acts).
Proof.
  intros Hrun Hin.
  pose proof (reachable_consistent _ _ _ _ Hrun) as Hc.
  pose proof (c_locks _ _ _ Hc) as Hh.
  destruct (take_task_enabled vf _ Hin) as [rest Hq].
  destruct (succeeded o) eqn:Hok.
  - destruct (succeeded_true _ Hok) as [err ->].
    assert (lock_of r ∉ held (shared s)) as Hfree
      by (rewrite Hh; apply not_elem_of_nil).
    pose proof (transform_video_exit_zero (λ _, Exited 0 err) vf (lock_of r)
                  (side_name r) (shared s) Hfree err eq_refl) as Ht.
    pose proof (step_worker_run L R r vf _ s rest _ () Hq Ht) as Hs.
    destruct r; (eexists _, _, _; split; [exact Ht|]; split; [exact Hs|]);
      simpl; do 4 (split; [done|]); (split; [reflexivity|]);
      do 2 (split; [done|]);
      (split; [done|]); eexists [_; _; _; _]; done.
  - destruct (transform_video_failed (λ _, o) vf (lock_of r) (side_name r)
                (shared s) Hok) as (acts & Ht & _ & Hio & Hlog).
    pose proof (step_worker_run L R r vf _ s rest _ () Hq Ht) as Hs.
    assert (guarded [] acts = true) as Hguard.
    { rewrite <- (app_nil_r acts). by rewrite io_guarded. }
    destruct r; (eexists _, acts, _; split; [exact Ht|]; split; [exact Hs|]);
      simpl; done.
Qed.

(** ** The loop condition *)

Lemma over_budget_spec elapsed :
  over_budget elapsed = true ↔ (MAX_ENC_TIME < elapsed)%Q.
Proof.
  unfold over_budget. rewrite (Qgt_alt elapsed MAX_ENC_TIME).
  destruct (elapsed ?= MAX_ENC_TIME)%Q; split; done.
Qed.

Lemma within_budget_spec elapsed :
  over_budget elapsed = false ↔ (elapsed <= MAX_ENC_TIME)%Q.
Proof.
  unfold over_budget. rewrite (Qle_alt elapsed MAX_ENC_TIME).
  destruct (elapsed ?= MAX_ENC_TIME)%Q; split; done.
Qed.

Lemma loop_condition_spec L R elapsed w :
  loop_condition L R elapsed w = true
  ↔ size (all_video_combinations w) < total_outputs_number L R
    ∨ (MAX_ENC_TIME < elapsed)%Q.
Proof.
  unfold loop_condition.
  rewrite orb_true_iff, Nat.ltb_lt, over_budget_spec. done.
Qed.

(** C2: the loop is left exactly when the main thread evaluates its
    condition and finds both [len(all_video_combinations) <
    total_outputs_number] and [elapsed > MAX_ENC_TIME] false; no turn of any
    other thread ends it. While pairs are missing the condition holds
    whatever the clock says, so running over the budget never ends the
    loop. *)
Theorem loop_exits_only_by_its_condition L R evs s e s' :
  run L R evs (initial L R) = Some s →
  loop_exited s = false →
  step L R e s = Some s' →
  (loop_exited s' = true
   ↔ ∃ elapsed launcher,
       e = MainThread elapsed launcher
       ∧ ¬ (size (all_video_combinations (shared s)) < total_outputs_number L R
            ∨ (MAX_ENC_TIME < elapsed)%Q))
  ∧ (size (all_video_combinations (shared s)) < total_outputs_number L R →
     loop_exited s' = false)
  ∧ (∀ elapsed,
       size (all_video_combinations (shared s)) < total_outputs_number L R →
       loop_condition L R elapsed (shared s) = true).
Proof.
  intros Hrun He Hstep.
  pose proof (reachable_consistent _ _ _ _ Hrun) as Hc.
  pose proof (c_locks _ _ _ Hc) as Hh.
  assert (∀ elapsed,
       size (all_video_combinations (shared s)) < total_outputs_number L R →
       loop_condition L R elapsed (shared s) = true) as Hmissing.
  { intros elapsed Hlt. apply loop_condition_spec. by left. }
  destruct (worker_event e) as [(r & vf & o & ->)|(elapsed & launcher & ->)].
  - destruct (step_worker _ _ r vf o s s' Hh Hstep)
      as (acts & _ & _ & _ & _ & Hex & _).
    rewrite Hex, He. split; [|done].
    split; [done|]. intros (elapsed & launcher & Heq & _). by destruct r.
  - destruct (loop_condition L R elapsed (shared s)) eqn:Hg.
    + destruct (step_main_iterates L R elapsed launcher s Hh He Hg)
        as (s2 & acts & Hs & Hrest).
      rewrite Hs in Hstep. injection Hstep as ->.
      destruct Hrest as (_ & _ & _ & _ & _ & _ & _ & _ & _ & _ & He').
      rewrite He'. split; [|done].
      split; [done|]. intros (el & la & [= <- _] & Hn).
      destruct Hn. by apply loop_condition_spec.
    + rewrite step_main_leaves in Hstep by done. injection Hstep as <-.
      simpl. split; [|split; [|done]].
      * split; [|done]. intros _. exists elapsed, launcher. split; [done|].
        rewrite <- loop_condition_spec, Hg. done.
      * intros Hlt. rewrite Hmissing in Hg; done.
Qed.

(** ** Batches *)

Lemma filter_fmap_absent {A B} `{EqDecision B} (f : A → B) (x : A) (l : list A) :
  (∀ y, f y = f x → y = x) → x ∉ l →
  filter (λ c, c = f x) (f <$> l) = [].
Proof.
  intros Hinj. induction l as [|y l IH]; [done|].
  intros [Hy Hl]%not_elem_of_cons. rewrite fmap_cons.
  rewrite filter_cons_False by (intros Heq; apply Hy; symmetry; by apply Hinj).
  by apply IH.
Qed.

Lemma filter_fmap_once {A B} `{EqDecision B} (f : A → B) (x : A) (l : list A) :
  (∀ y, f y = f x → y = x) → NoDup l → x ∈ l →
  length (filter (λ c, c = f x) (f <$> l)) = 1.
Proof.
  intros Hinj. induction l as [|y l IH]; [by intros _ ?%elem_of_nil|].
  intros [Hy Hnd]%NoDup_cons Hin. rewrite fmap_cons.
  destruct (decide (f y = f x)) as [Heq|Hne].
  - apply Hinj in Heq as ->. rewrite filter_cons_True by done. simpl.
    by rewrite (filter_fmap_absent f x l Hinj Hy).
  - rewrite filter_cons_False by done.
    apply elem_of_cons in Hin as [->|Hin]; [done|]. by apply IH.
Qed.


(** C8: when the process of a combine task fails, the failure is printed,
    the command is launched once in the iteration and not again, and the
    pair is in [all_video_combinations] after the iteration; the set after
    the iteration does not depend on what the launcher answered. *)
Theorem failed_combine_is_counted L R evs s elapsed launcher a b :
  run L R evs (initial L R) = Some s →
  loop_exited s = false →
  loop_condition L R elapsed (shared s) = true →
  a ∈ transformed_left (shared s) →
  b ∈ transformed_right (shared s) →
  succeeded (launcher (join_cmd a b)) = false →
  ∃ s' acts,
    step L R (MainThread elapsed launcher) s = Some s'
    ∧ launches (trace (shared s')) = launches (trace (shared s)) ++ launches acts
    ∧ printed (trace (shared s')) = printed (trace (shared s)) ++ printed acts
    ∧ failure_logged ("writing to " +:+ join_output_file a b) (printed acts)
    ∧ length (filter (λ c, c = join_cmd a b) (launches acts)) = 1
    ∧ (a, b) ∈ all_video_combinations (shared s')
    ∧ (∀ launcher', ∃ s'',
         step L R (MainThread elapsed launcher') s = Some s''
         ∧ all_video_combinations (shared s'')
           = all_video_combinations (shared s')).
Proof.
  intros Hrun He Hg Ha Hb Hfail.
  pose proof (reachable_consistent _ _ _ _ Hrun) as Hc.
  pose proof (c_locks _ _ _ Hc) as Hh.
  destruct (step_main_iterates L R elapsed launcher s Hh He Hg)
    as (s' & acts & Hs & Ht & Hl & Hio & Hlog & _ & _ & _ & Hall & _).
  exists s', acts. split; [done|].
  split; [|split; [|split; [|split; [|split]]]].
  - rewrite Ht, !launches_app. simpl. by rewrite app_nil_r.
  - rewrite Ht, !printed_app. simpl. by rewrite app_nil_r.
  - by apply Hlog.
  - rewrite Hl.
    apply (filter_fmap_once (λ vt : string * string, join_cmd vt.1 vt.2) (a, b)).
    + intros [a' b'] Heq. simpl in Heq. by apply join_cmd_inj in Heq as [-> ->].
    + apply NoDup_elements.
    + apply elem_of_elements. by apply elem_of_gset_cprod.
  - rewrite Hall. apply elem_of_union_r. by apply elem_of_gset_cprod.
  - intros launcher'.
    destruct (step_main_iterates L R elapsed launcher' s Hh He Hg)
      as (s'' & acts' & Hs' & _ & _ & _ & _ & _ & _ & _ & Hall' & _).
    exists s''. split; [done|]. by rewrite Hall, Hall'.
Qed.

(** ** Turns that leave the loop's state alone *)

Lemma step_idle L R e s s' :
  consistent L R s → step L R e s = Some s' →
  is_worker_turn e = true ∨ loop_exited s = true →
  all_video_combinations (shared s') = all_video_combinations (shared s)
  ∧ batches (trace (shared s')) = batches (trace (shared s))
  ∧ loop_exited s' = loop_exited s.
Proof.
  intros Hc Hstep Hidle.
  destruct (worker_event e) as [(r & vf & o & ->)|(elapsed & launcher & ->)].
  - destruct (step_worker _ _ r vf o s s' (c_locks _ _ _ Hc) Hstep)
      as (acts & Ht & _ & _ & Hall & Hex & _ & _ & _ & Hb & _).
    rewrite Ht, batches_app, Hb, app_nil_r. done.
  - destruct Hidle as [?|He]; [done|].
    rewrite step_main_exited in Hstep by done. by injection Hstep as <-.
Qed.

Lemma run_idle L R evs s s' :
  consistent L R s → run L R evs s = Some s' →
  forallb is_worker_turn evs = true ∨ loop_exited s = true →
  all_video_combinations (shared s') = all_video_combinations (shared s)
  ∧ batches (trace (shared s')) = batches (trace (shared s))
  ∧ loop_exited s' = loop_exited s.
Proof.
  revert s. induction evs as [|e evs IH]; intros s Hc; simpl.
  - by intros [= <-].
  - destruct (step L R e s) as [s1|] eqn:Hs; simpl; [|done].
    intros Hrun Hidle.
    assert (is_worker_turn e = true ∨ loop_exited s = true) as Hidle1.
    { destruct Hidle as [[? _]%andb_prop|?]; auto. }
    destruct (step_idle L R e s s1 Hc Hs Hidle1) as (Hall & Hb & He).
    destruct (IH s1 (step_consistent _ _ _ _ _ Hc Hs) Hrun) as (Hall' & Hb' & He').
    { destruct Hidle as [[_ ?]%andb_prop|?]; [by left|right; congruence]. }
    rewrite Hall', Hb', He'. done.
Qed.

(** C10: with an empty input collection the product counts no pair. The
    first evaluation of the loop condition, read within the time budget,
    is false: the main thread leaves the loop at once, no batch is ever
    built and no combine command is ever launched, whatever the workers do
    before and whatever happens afterwards. *)
Theorem empty_input_skips_loop L R evs1 elapsed launcher evs2 s :
  L = [] ∨ R = [] →
  forallb is_worker_turn evs1 = true →
  (elapsed <= MAX_ENC_TIME)%Q →
  run L R (evs1 ++ MainThread elapsed launcher :: evs2) (initial L R) = Some s →
  total_outputs_number L R = 0
  ∧ (∃ s1, run L R evs1 (initial L R) = Some s1
           ∧ loop_exited s1 = false
           ∧ loop_condition L R elapsed (shared s1) = false)
  ∧ loop_exited s = true
  ∧ batches (trace (shared s)) = []
  ∧ all_video_combinations (shared s) = ∅
  ∧ (∀ a b, join_cmd a b ∉ launches (trace (shared s))).
Proof.
  intros Hempty Hw Hbudget Hrun.
  assert (total_outputs_number L R = 0) as Htotal.
  { unfold total_outputs_number. destruct Hempty as [-> | ->]; simpl; lia. }
  rewrite run_app in Hrun.
  destruct (run L R evs1 (initial L R)) as [s1|] eqn:Hrun1; simpl in Hrun; [|done].
  pose proof (reachable_consistent _ _ _ _ Hrun1) as Hc1.
  destruct (run_idle L R evs1 _ s1 (initial_consistent L R) Hrun1)
    as (Hall1 & Hb1 & He1); [by left|].
  simpl in Hall1, Hb1, He1.
  assert (loop_condition L R elapsed (shared s1) = false) as Hg.
  { unfold loop_condition. rewrite Htotal, Hall1, size_empty. simpl.
    by apply within_budget_spec. }
  rewrite He1, Hg in Hrun.
  set (s2 := {| shared := shared s1; queue_left := queue_left s1;
                queue_right := queue_right s1; loop_exited := true |}) in Hrun.
  assert (consistent L R s2) as Hc2.
  { apply (step_consistent L R (MainThread elapsed launcher) s1); [done|].
    by apply step_main_leaves. }
  destruct (run_idle L R evs2 s2 s Hc2 Hrun) as (Hall & Hb & He); [by right|].
  simpl in Hall, Hb, He.
  pose proof (run_consistent L R evs2 s2 s Hc2 Hrun) as Hc.
  split; [done|]. split; [by exists s1|]. split; [done|].
  split; [by rewrite Hb|]. split; [by rewrite Hall|].
  intros a b Hin. apply (c_joins _ _ _ Hc) in Hin.
  rewrite Hall, Hall1 in Hin. by apply not_elem_of_empty in Hin.
Qed.

(** ** Registries only grow *)

Lemma step_registries_grow L R e s s' :
  consistent L R s → step L R e s = Some s' →
  ∀ r, reg r (shared s) ⊆ reg r (shared s').
Proof.
  intros Hc Hstep r.
  destruct (worker_event e) as [(r0 & vf & o & ->)|(elapsed & launcher & ->)].
  - destruct (step_worker _ _ r0 vf o s s' (c_locks _ _ _ Hc) Hstep)
      as (acts & _ & _ & Hreg & _).
    rewrite Hreg. set_solver.
  - destruct (loop_exited s) eqn:He.
    { rewrite step_main_exited in Hstep by done. by injection Hstep as <-. }
    destruct (loop_condition L R elapsed (shared s)) eqn:Hg.
    + destruct (step_main_iterates L R elapsed launcher s (c_locks _ _ _ Hc) He Hg)
        as (s2 & acts & Hs & _ & _ & _ & _ & _ & Hl & Hr & _).
      rewrite Hs in Hstep. injection Hstep as ->.
      destruct r; simpl; by rewrite ?Hl, ?Hr.
    + rewrite step_main_leaves in Hstep by done. by injection Hstep as <-.
Qed.

Lemma run_registries_grow L R evs s s' :
  consistent L R s → run L R evs s = Some s' →
  ∀ r, reg r (shared s) ⊆ reg r (shared s').
Proof.
  revert s. induction evs as [|e evs IH]; intros s Hc; simpl.
  - by intros [= <-].
  - destruct (step L R e s) as [s1|] eqn:Hs; simpl; [|done].
    intros Hrun r. etrans; [by eapply step_registries_grow|].
    apply IH; [|done]. by eapply step_consistent.
Qed.

Lemma submseteq_keeps_NoDup {A} (l k : list A) : l ⊆+ k → NoDup k → NoDup l.
Proof.
  intros [k' Hk]%submseteq_Permutation. rewrite Hk.
  by intros [? _]%NoDup_app.
Qed.

Lemma size_of_list_le (l : list string) :
  size (list_to_set l : gset string) ≤ length l.
Proof.
  induction l as [|x l IH].
  - rewrite list_to_set_nil, size_empty. done.
  - rewrite list_to_set_cons, size_union_alt, size_singleton.
    assert (size (list_to_set l ∖ {[x]} : gset string)
            ≤ size (list_to_set l : gset string))
      by (apply subseteq_size; set_solver).
    simpl. lia.
Qed.

Lemma artifacts_NoDup L R r :
  NoDup (Path.basename <$> inputs L R r) → NoDup (artifact r <$> inputs L R r).
Proof.
  generalize (inputs L R r). intros l. induction l as [|vf l IH]; simpl.
  - intros _. constructor.
  - intros [Hvf Hl]%NoDup_cons. apply NoDup_cons. split; [|by apply IH].
    intros (vf' & Heq & Hin)%list_elem_of_fmap. apply Hvf.
    apply list_elem_of_fmap. exists vf'. split; [|done].
    by apply (artifact_inj r).
Qed.

(** C9: along every interleaving of the workers and the main thread, a
    registry never loses a member; each member is the artifact that
    [transform_video] derives from some input file of that side; and the
    insertions made so far, counted with repetition, fit inside the list of
    the inputs' artifacts, so that no input file is inserted twice. For
    input files with distinct base names, no artifact is inserted twice. *)
Theorem registries_grow_one_artifact_per_input L R evs evs' s s' :
  run L R evs (initial L R) = Some s →
  run L R evs' s = Some s' →
  ∀ r,
    reg r (shared s) ⊆ reg r (shared s')
    ∧ reg r (shared s') = list_to_set (adds r (trace (shared s')))
    ∧ (∀ a, a ∈ reg r (shared s') →
            ∃ vf, vf ∈ inputs L R r
                  ∧ a = transform_output_file vf (side_name r))
    ∧ adds r (trace (shared s')) ⊆+ artifact r <$> inputs L R r
    ∧ size (reg r (shared s')) ≤ length (inputs L R r)
    ∧ (NoDup (Path.basename <$> inputs L R r) →
       NoDup (adds r (trace (shared s')))).
Proof.
  intros Hrun Hrun' r.
  pose proof (reachable_consistent _ _ _ _ Hrun) as Hc.
  pose proof (run_consistent _ _ _ _ _ Hc Hrun') as Hc'.
  assert (adds r (trace (shared s')) ⊆+ artifact r <$> inputs L R r) as Hsub.
  { etrans; [|apply (c_tasks _ _ _ Hc' r)]. by apply submseteq_inserts_r. }
  split; [by apply (run_registries_grow L R evs')|].
  split; [apply (c_registry _ _ _ Hc')|].
  split; [|split; [done|split]].
  - intros a Ha. rewrite (c_registry _ _ _ Hc') in Ha.
    apply elem_of_list_to_set in Ha.
    apply (elem_of_submseteq _ _ _ Ha) in Hsub.
    apply list_elem_of_fmap in Hsub as (vf & -> & Hin). by exists vf.
  - rewrite (c_registry _ _ _ Hc').
    etrans; [apply size_of_list_le|].
    apply submseteq_length in Hsub. by rewrite length_fmap in Hsub.
  - intros Hnd. eapply submseteq_keeps_NoDup; [exact Hsub|].
    by apply artifacts_NoDup.
Qed.

(** ** Runs in which every transform succeeds *)

Lemma step_main_adds L R elapsed launcher s s' :
  consistent L R s → step L R (MainThread elapsed launcher) s = Some s' →
  (∀ r, adds r (trace (shared s')) = adds r (trace (shared s)))
  ∧ (∀ r, queue r s' = queue r s).
Proof.
  intros Hc Hstep.
  destruct (loop_exited s) eqn:He.
  { rewrite step_main_exited in Hstep by done. by injection Hstep as <-. }
  destruct (loop_condition L R elapsed (shared s)) eqn:Hg.
  - destruct (step_main_iterates L R elapsed launcher s (c_locks _ _ _ Hc) He Hg)
      as (s2 & acts & Hs & Ht & _ & Hio & _ & _ & _ & _ & _ & Hql & Hqr & _).
    rewrite Hs in Hstep. injection Hstep as ->. split.
    + intros r. rewrite Ht, !adds_app, (io_adds r acts Hio).
      destruct r; simpl; by rewrite app_nil_r.
    + by intros [].
  - rewrite step_main_leaves in Hstep by done. injection Hstep as <-.
    split; [done|]. by intros [].
Qed.





(** ** A run that completes too late *)





(** ** A run in which one transform fails *)

Lemma NoDup_fmap_eq {A B} (f : A → B) (l : list A) x y :
  NoDup (f <$> l) → x ∈ l → y ∈ l → f x = f y → x = y.
Proof.
  induction l as [|z l IH]; [by intros _ ?%elem_of_nil|].
  rewrite fmap_cons. intros [Hz Hnd]%NoDup_cons Hx Hy Heq.
  apply elem_of_cons in Hx as [->|Hx]; apply elem_of_cons in Hy as [->|Hy].
  - done.
  - destruct Hz. rewrite Heq. by apply list_elem_of_fmap_2.
  - destruct Hz. rewrite <- Heq. by apply list_elem_of_fmap_2.
  - by apply IH.
Qed.

Lemma run_never_registers L R bad evs s s' :
  bad ∈ L → NoDup (Path.basename <$> L) →
  (∀ o, LeftWorker bad o ∈ evs → succeeded o = false) →
  consistent L R s →
  artifact RegLeft bad ∉ adds RegLeft (trace (shared s)) →
  run L R evs s = Some s' →
  artifact RegLeft bad ∉ adds RegLeft (trace (shared s')).
Proof.
  intros Hbad Hnd. revert s.
  induction evs as [|e evs IH]; intros s Hfail Hc Hnot; simpl.
  - by intros [= <-].
  - destruct (step L R e s) as [s1|] eqn:Hs; simpl; [|done].
    apply IH.
    { intros o Hin. apply Hfail. by right. }
    { by eapply step_consistent. }
    destruct (worker_event e) as [(r & vf & o & ->)|(elapsed & launcher & ->)].
    + destruct (step_worker _ _ r vf o s s1 (c_locks _ _ _ Hc) Hs)
        as (acts & Ht & _ & _ & _ & _ & Hq & _ & _ & _ & Hadds).
      rewrite Ht, adds_app, Hadds. intros [?|Hin]%elem_of_app; [done|].
      destruct (succeeded o) eqn:Ho; simpl in Hin; [|by apply elem_of_nil in Hin].
      destruct r; simpl in Hin; [|by apply elem_of_nil in Hin].
      apply list_elem_of_singleton in Hin. apply artifact_inj in Hin.
      assert (vf ∈ L) as HvfL.
      { apply take_task_perm in Hq. simpl in Hq.
        apply (elem_of_submseteq (queue_left s)); [|apply (c_queue _ _ _ Hc RegLeft)].
        rewrite Hq. by left. }
      assert (bad = vf) as -> by (by eapply (NoDup_fmap_eq Path.basename L)).
      rewrite (Hfail o) in Ho; [done|by left].
    + destruct (step_main_adds L R elapsed launcher s s1 Hc Hs) as [Ha _].
      by rewrite Ha.
Qed.

(** C3 on the code: when the transform of one left input file fails, its
    artifact is never registered, no combine command ever names it and no
    pair contains it; but then fewer than
    [len(left_videos) * len(right_videos)] pairs can ever be counted, the
    loop condition holds at every evaluation and the loop is never left. *)
Theorem failed_transform_loop_never_exits L R bad evs s :
  bad ∈ L → R ≠ [] → NoDup (Path.basename <$> L) →
  (∀ o, LeftWorker bad o ∈ evs → succeeded o = false) →
  run L R evs (initial L R) = Some s →
  (artifact RegLeft bad ∉ transformed_left (shared s))
  ∧ (∀ b, join_cmd (artifact RegLeft bad) b ∉ launches (trace (shared s)))
  ∧ (∀ b, (artifact RegLeft bad, b) ∉ all_video_combinations (shared s))
  ∧ size (all_video_combinations (shared s)) ≤ (length L - 1) * length R
  ∧ size (all_video_combinations (shared s)) < total_outputs_number L R
  ∧ (∀ elapsed, loop_condition L R elapsed (shared s) = true)
  ∧ loop_exited s = false.
Proof.
  intros Hbad HR Hnd Hfail Hrun.
  pose proof (reachable_consistent _ _ _ _ Hrun) as Hc.
  pose proof (run_never_registers L R bad evs _ s Hbad Hnd Hfail
                (initial_consistent L R)) as Hnot.
  specialize (Hnot (not_elem_of_nil _) Hrun).
  assert (artifact RegLeft bad ∉ transformed_left (shared s)) as HnotL.
  { rewrite (c_registry _ _ _ Hc RegLeft : transformed_left (shared s) = _).
    by rewrite elem_of_list_to_set. }
  assert (∀ b, (artifact RegLeft bad, b) ∉ all_video_combinations (shared s))
    as Hnopair.
  { intros b Hin. apply (c_produced _ _ _ Hc) in Hin.
    apply elem_of_gset_cprod in Hin as [Hin _]. done. }
  assert (size (transformed_left (shared s)) ≤ length L - 1) as HsizeL.
  { rewrite (c_registry _ _ _ Hc RegLeft : transformed_left (shared s) = _).
    etrans; [apply size_of_list_le|].
    assert (adds RegLeft (trace (shared s)) ⊆+ artifact RegLeft <$> L) as Hsub.
    { etrans; [|apply (c_tasks _ _ _ Hc RegLeft)]. by apply submseteq_inserts_r. }
    apply elem_of_Permutation in Hbad as [L' HL'].
    rewrite HL' in Hsub. rewrite HL'. simpl.
    rewrite fmap_cons in Hsub. apply submseteq_cons_r in Hsub as [Hsub|Hsub].
    - apply submseteq_length in Hsub. rewrite length_fmap in Hsub. lia.
    - destruct Hsub as (k & Hk & _). destruct Hnot. rewrite Hk. by left. }
  assert (size (transformed_right (shared s)) ≤ length R) as HsizeR.
  { rewrite (c_registry _ _ _ Hc RegRight : transformed_right (shared s) = _).
    etrans; [apply size_of_list_le|].
    assert (adds RegRight (trace (shared s)) ⊆+ artifact RegRight <$> R) as Hsub.
    { etrans; [|apply (c_tasks _ _ _ Hc RegRight)]. by apply submseteq_inserts_r. }
    apply submseteq_length in Hsub. by rewrite length_fmap in Hsub. }
  assert (size (all_video_combinations (shared s)) ≤ (length L - 1) * length R)
    as Hsize.
  { etrans; [apply subseteq_size, (c_produced _ _ _ Hc)|].
    rewrite size_cprod. by apply Nat.mul_le_mono. }
  assert (size (all_video_combinations (shared s)) < total_outputs_number L R)
    as Hlt.
  { unfold total_outputs_number.
    assert (0 < length L) by (destruct L; [by apply elem_of_nil in Hbad|simpl; lia]).
    assert (0 < length R) by (destruct R; [done|simpl; lia]).
    nia. }
  split; [done|]. split.
  { intros b Hin. apply (c_joins _ _ _ Hc) in Hin. by apply Hnopair in Hin. }
  do 3 (split; [done|]). split.
  { intros elapsed. apply loop_condition_spec. by left. }
  destruct (loop_exited s) eqn:He; [|done].
  pose proof (c_exit _ _ _ Hc He). lia.
Qed.

(** ** Complete, and the budget already spent *)

Lemma complete_within_budget_exits L R evs s elapsed launcher :
  run L R evs (initial L R) = Some s →
  loop_exited s = false →
  size (all_video_combinations (shared s)) = total_outputs_number L R →
  (elapsed <= MAX_ENC_TIME)%Q →
  step L R (MainThread elapsed launcher) s =
    Some {| shared := shared s; queue_left := queue_left s;
            queue_right := queue_right s; loop_exited := true |}.
Proof.
  intros Hrun He Hfull Hbudget. apply step_main_leaves; [done|].
  unfold loop_condition. rewrite Hfull, Nat.ltb_irrefl. simpl.
  by apply within_budget_spec.
Qed.

(** C5 on the code: with every pair already in [all_video_combinations],
    an evaluation of the loop condition that reads a time over the budget
    runs the body once more: all [total_outputs_number] combine commands
    are launched again and the loop goes on. *)
Theorem complete_over_budget_dispatches_again L R evs s elapsed launcher :
  run L R evs (initial L R) = Some s →
  loop_exited s = false →
  size (all_video_combinations (shared s)) = total_outputs_number L R →
  (MAX_ENC_TIME < elapsed)%Q →
  ∃ s' acts,
    step L R (MainThread elapsed launcher) s = Some s'
    ∧ launches (trace (shared s')) = launches (trace (shared s)) ++ launches acts
    ∧ length (launches acts) = total_outputs_number L R
    ∧ (∀ a b, (a, b) ∈ all_video_combinations (shared s) →
              join_cmd a b ∈ launches acts)
    ∧ all_video_combinations (shared s') = all_video_combinations (shared s)
    ∧ loop_exited s' = false.
Proof.
  intros Hrun He Hfull Hover.
  pose proof (reachable_consistent _ _ _ _ Hrun) as Hc.
  assert (loop_condition L R elapsed (shared s) = true) as Hg
    by (apply loop_condition_spec; by right).
  destruct (step_main_iterates L R elapsed launcher s (c_locks _ _ _ Hc) He Hg)
    as (s' & acts & Hs & Ht & Hl & Hio & _ & _ & _ & _ & Hall & _ & _ & He').
  set (P := cprod (transformed_left (shared s)) (transformed_right (shared s))
            : gset (string * string)) in *.
  assert (size P ≤ total_outputs_number L R) as HsizeP.
  { unfold P, total_outputs_number. rewrite size_cprod.
    apply Nat.mul_le_mono.
    - rewrite (c_registry _ _ _ Hc RegLeft : transformed_left (shared s) = _).
      etrans; [apply size_of_list_le|].
      assert (adds RegLeft (trace (shared s)) ⊆+ artifact RegLeft <$> L) as Hsub.
      { etrans; [|apply (c_tasks _ _ _ Hc RegLeft)]. by apply submseteq_inserts_r. }
      apply submseteq_length in Hsub. by rewrite length_fmap in Hsub.
    - rewrite (c_registry _ _ _ Hc RegRight : transformed_right (shared s) = _).
      etrans; [apply size_of_list_le|].
      assert (adds RegRight (trace (shared s)) ⊆+ artifact RegRight <$> R) as Hsub.
      { etrans; [|apply (c_tasks _ _ _ Hc RegRight)]. by apply submseteq_inserts_r. }
      apply submseteq_length in Hsub. by rewrite length_fmap in Hsub. }
  assert (all_video_combinations (shared s) = P) as HP.
  { apply set_subseteq_size_eq; [apply (c_produced _ _ _ Hc)|]. by rewrite Hfull. }
  exists s', acts. split; [done|]. split.
  { rewrite Ht, !launches_app. simpl. by rewrite app_nil_r. }
  split.
  { rewrite Hl, length_fmap. change (size P = total_outputs_number L R).
    by rewrite <- HP. }
  split.
  { intros a b Hin. rewrite Hl. apply list_elem_of_fmap. exists (a, b).
    split; [done|]. apply elem_of_elements. by rewrite <- HP. }
  split; [|done]. rewrite Hall. fold P. rewrite HP. set_solver.
Qed.

(** * The theorems at concrete runs *)


Lemma loop_exits_only_by_its_condition_witness :
  ∃ s',
    step demo_left demo_right (MainThread (600 # 1) (λ _, exit_zero))
         (initial demo_left demo_right) = Some s'
    ∧ (size (all_video_combinations (shared (initial demo_left demo_right)))
         < total_outputs_number demo_left demo_right →
       loop_exited s' = false).
Proof.
  eexists. split; [vm_compute; reflexivity|].
  eapply (loop_exits_only_by_its_condition demo_left demo_right []
            (initial demo_left demo_right)
            (MainThread (600 # 1) (λ _, exit_zero))).
  - reflexivity.
  - reflexivity.
  - vm_compute. reflexivity.
Defined.

Lemma failed_transform_loop_never_exits_witness :
  run demo_left demo_right demo_one_failure (initial demo_left demo_right)
    = Some (after demo_left demo_right demo_one_failure)
  ∧ size (all_video_combinations
            (shared (after demo_left demo_right demo_one_failure)))
    ≤ (2 - 1) * 1
  ∧ loop_exited (after demo_left demo_right demo_one_failure) = false.
Proof.
  split; [vm_compute; reflexivity|].
  destruct (failed_transform_loop_never_exits demo_left demo_right
              "left_dir/video2.mp4" demo_one_failure
              (after demo_left demo_right demo_one_failure))
    as (_ & _ & _ & Hsize & _ & _ & He).
  - vm_compute. right. left.
  - discriminate.
  - apply (bool_decide_unpack _). vm_compute. exact I.
  - intros o Hin. unfold demo_one_failure in Hin.
    repeat (apply elem_of_cons in Hin as [Hin|Hin]; [by inversion Hin|]).
    by apply elem_of_nil in Hin.
  - vm_compute. reflexivity.
  - split; [exact Hsize|exact He].
Defined.


Lemma complete_over_budget_dispatches_again_witness :
  run demo_single_left demo_single_right (prefix 3 slow_schedule)
      (initial demo_single_left demo_single_right)
    = Some (after demo_single_left demo_single_right (prefix 3 slow_schedule))
  ∧ size (all_video_combinations
            (shared (after demo_single_left demo_single_right
                           (prefix 3 slow_schedule))))
    = total_outputs_number demo_single_left demo_single_right
  ∧ ∃ s' acts,
      step demo_single_left demo_single_right
           (MainThread (10801 # 1) (λ _, exit_zero))
           (after demo_single_left demo_single_right (prefix 3 slow_schedule))
        = Some s'
      ∧ length (launches acts) = 1
      ∧ loop_exited s' = false.
Proof.
  split; [vm_compute; reflexivity|]. split; [vm_compute; reflexivity|].
  destruct (complete_over_budget_dispatches_again
              demo_single_left demo_single_right (prefix 3 slow_schedule)
              (after demo_single_left demo_single_right (prefix 3 slow_schedule))
              (10801 # 1) (λ _, exit_zero))
    as (s' & acts & Hs & _ & Hlen & _ & _ & He).
  - vm_compute. reflexivity.
  - vm_compute. reflexivity.
  - vm_compute. reflexivity.
  - unfold Qlt. simpl. lia.
  - exists s', acts. split; [exact Hs|]. split; [exact Hlen|exact He].
Defined.

Lemma transform_failure_is_contained_witness :
  "left_dir/video2.mp4" ∈ queue RegLeft (initial demo_left demo_right)
  ∧ ∃ w' s',
      transform_video (λ _, exit_one) "left_dir/video2.mp4"
        lock_transformed_left "left" (shared (initial demo_left demo_right))
        = (Returned (), w')
      ∧ step demo_left demo_right (LeftWorker "left_dir/video2.mp4" exit_one)
             (initial demo_left demo_right) = Some s'
      ∧ transformed_left w' = ∅.
Proof.
  assert ("left_dir/video2.mp4" ∈ queue RegLeft (initial demo_left demo_right))
    as Hin by (simpl; right; left).
  split; [exact Hin|].
  destruct (transform_failure_is_contained demo_left demo_right []
              (initial demo_left demo_right) RegLeft "left_dir/video2.mp4"
              exit_one eq_refl Hin)
    as (w' & acts & s' & Ht & Hs & _ & _ & _ & _ & _ & _ & _ & Hreg & _).
  exists w', s'. split; [exact Ht|]. split; [exact Hs|exact Hreg].
Defined.

Lemma failed_combine_is_counted_witness :
  run demo_left demo_right demo_transforms (initial demo_left demo_right)
    = Some (after demo_left demo_right demo_transforms)
  ∧ succeeded exit_one = false
  ∧ ∃ s',
      step demo_left demo_right (MainThread (5 # 1) (λ _, exit_one))
           (after demo_left demo_right demo_transforms) = Some s'
      ∧ ("transformed_left_videos/video1.mp4",
         "transformed_right_videos/video1.mp4")
          ∈ all_video_combinations (shared s').
Proof.
  split; [vm_compute; reflexivity|]. split; [reflexivity|].
  destruct (failed_combine_is_counted demo_left demo_right demo_transforms
              (after demo_left demo_right demo_transforms)
              (5 # 1) (λ _, exit_one)
              "transformed_left_videos/video1.mp4"
              "transformed_right_videos/video1.mp4")
    as (s' & acts & Hs & _ & _ & _ & _ & Hin & _).
  - vm_compute. reflexivity.
  - vm_compute. reflexivity.
  - vm_compute. reflexivity.
  - apply (bool_decide_unpack _). vm_compute. exact I.
  - apply (bool_decide_unpack _). vm_compute. exact I.
  - reflexivity.
  - exists s'. split; [exact Hs|exact Hin].
Defined.

Lemma registries_grow_one_artifact_per_input_witness :
  run demo_left demo_right [LeftWorker "left_dir/video1.mp4" exit_zero]
      (initial demo_left demo_right)
    = Some (after demo_left demo_right
                  [LeftWorker "left_dir/video1.mp4" exit_zero])
  ∧ run demo_left demo_right demo_then
        (after demo_left demo_right
               [LeftWorker "left_dir/video1.mp4" exit_zero])
    = Some (after demo_left demo_right
                  (LeftWorker "left_dir/video1.mp4" exit_zero :: demo_then))
  ∧ size (reg RegLeft
            (shared (after demo_left demo_right
                       (LeftWorker "left_dir/video1.mp4" exit_zero
                        :: demo_then))))
    ≤ length (inputs demo_left demo_right RegLeft).
Proof.
  split; [vm_compute; reflexivity|]. split; [vm_compute; reflexivity|].
  destruct (registries_grow_one_artifact_per_input demo_left demo_right
              [LeftWorker "left_dir/video1.mp4" exit_zero] demo_then
              (after demo_left demo_right
                     [LeftWorker "left_dir/video1.mp4" exit_zero])
              (after demo_left demo_right
                     (LeftWorker "left_dir/video1.mp4" exit_zero :: demo_then)))
    with (r := RegLeft) as (_ & _ & _ & _ & Hsize & _).
  - vm_compute. reflexivity.
  - vm_compute. reflexivity.
  - exact Hsize.
Defined.

Lemma empty_input_skips_loop_witness :
  run [] demo_right
      ([RightWorker "right_dir/video1.mp4" exit_zero]
       ++ MainThread (0 # 1) (λ _, exit_zero)
          :: [MainThread (99999 # 1) (λ _, exit_zero)])
      (initial [] demo_right)
    = Some (after [] demo_right
              [ RightWorker "right_dir/video1.mp4" exit_zero;
                MainThread (0 # 1) (λ _, exit_zero);
                MainThread (99999 # 1) (λ _, exit_zero) ])
  ∧ loop_exited (after [] demo_right
              [ RightWorker "right_dir/video1.mp4" exit_zero;
                MainThread (0 # 1) (λ _, exit_zero);
                MainThread (99999 # 1) (λ _, exit_zero) ]) = true
  ∧ batches (trace (shared (after [] demo_right
              [ RightWorker "right_dir/video1.mp4" exit_zero;
                MainThread (0 # 1) (λ _, exit_zero);
                MainThread (99999 # 1) (λ _, exit_zero) ]))) = [].
Proof.
  split; [vm_compute; reflexivity|].
  destruct (empty_input_skips_loop [] demo_right
              [RightWorker "right_dir/video1.mp4" exit_zero]
              (0 # 1) (λ _, exit_zero)
              [MainThread (99999 # 1) (λ _, exit_zero)]
              (after [] demo_right
                 [ RightWorker "right_dir/video1.mp4" exit_zero;
                   MainThread (0 # 1) (λ _, exit_zero);
                   MainThread (99999 # 1) (λ _, exit_zero) ]))
    as (_ & _ & He & Hb & _).
  - left. reflexivity.
  - reflexivity.
  - unfold Qle. simpl. lia.
  - vm_compute. reflexivity.
  - split; [exact He|exact Hb].
Defined.

(** * Further properties of the code *)

(** ** Intermediate and output file names *)

(** X1: the intermediate file of an input lies directly in the output
    directory of its side (the right one for every side other than "left")
    under the input's own base name; so two inputs of one side are written
    to the same intermediate file exactly when their base names agree,
    whatever their directories. *)
Theorem transform_output_keeps_base_name vf vf' side :
  transform_output_file vf side
    = (if String.eqb side "left" then "transformed_left_videos/"
       else "transformed_right_videos/") +:+ Path.basename vf
  ∧ Path.basename (transform_output_file vf side) = Path.basename vf
  ∧ (transform_output_file vf side = transform_output_file vf' side
     ↔ Path.basename vf = Path.basename vf').
Proof.
  assert (∀ f, transform_output_file f side
               = (if String.eqb side "left" then "transformed_left_videos/"
                  else "transformed_right_videos/") +:+ Path.basename f) as Hname.
  { intros f. unfold transform_output_file.
    destruct (String.eqb side "left");
      rewrite PathFacts.join_plain by (try done; apply PathFacts.basename_plain);
      done. }
  assert (∀ f, Path.basename (transform_output_file f side) = Path.basename f)
    as Hbase.
  { intros f. unfold transform_output_file.
    destruct (String.eqb side "left");
      rewrite PathFacts.join_plain by (try done; apply PathFacts.basename_plain);
      apply PathFacts.basename_in_dir, PathFacts.basename_plain. }
  split; [apply Hname|]. split; [apply Hbase|]. split.
  - intros Heq. by rewrite <- (Hbase vf), Heq, Hbase.
  - intros Heq. by rewrite !Hname, Heq.
Qed.

Lemma length_app_string (s t : string) :
  String.length (s +:+ t) = String.length s + String.length t.
Proof. induction s as [|c s IH]; simpl; [done|]. by rewrite IH. Qed.

Lemma take_app_string (s t : string) : Path.take (String.length s) (s +:+ t) = s.
Proof. induction s as [|c s IH]; simpl; [by destruct t|]. by rewrite IH. Qed.

Lemma chop4_extension (stem ext : string) :
  String.length ext = 4 → Path.chop4 (stem +:+ ext) = stem.
Proof.
  intros Hlen. unfold Path.chop4. rewrite length_app_string, Hlen.
  replace (String.length stem + 4 - 4) with (String.length stem) by lia.
  apply take_app_string.
Qed.

Lemma app_assoc_string (s t u : string) : (s +:+ t) +:+ u = s +:+ (t +:+ u).
Proof.
  induction s as [|c s IH]; [done|].
  change (String c ((s +:+ t) +:+ u) = String c (s +:+ (t +:+ u))).
  by rewrite IH.
Qed.

(** X2: for a left file [stem] + a four-character extension and a right
    file [name], in any directories, the combined video is written to
    [video_output/stem_name]: the left extension is dropped, the right one
    kept. *)
Theorem join_output_for_extension dl dr stem ext name :
  Path.plain stem = true → Path.plain ext = true → String.length ext = 4 →
  Path.plain name = true →
  join_output_file (dl +:+ String Path.sep (stem +:+ ext))
                   (dr +:+ String Path.sep name)
    = "video_output/" +:+ stem +:+ "_" +:+ name.
Proof.
  intros Hstem Hext Hlen Hname. unfold join_output_file.
  rewrite PathFacts.join_plain by (try done; apply join_output_basename_plain).
  unfold join_output_basename.
  rewrite !PathFacts.basename_in_dir
    by (try done; rewrite PathFacts.plain_app, Hstem, Hext; done).
  by rewrite chop4_extension.
Qed.

Lemma join_output_for_extension_witness :
  join_output_file ("transformed_left_videos" +:+ String Path.sep ("video1" +:+ ".mp4"))
                   ("transformed_right_videos" +:+ String Path.sep "video7.mp4")
    = "video_output/" +:+ "video1" +:+ "_" +:+ "video7.mp4".
Proof.
  apply (join_output_for_extension "transformed_left_videos"
           "transformed_right_videos" "video1" ".mp4" "video7.mp4");
    reflexivity.
Defined.

(** X3: a left base name of four characters or fewer leaves nothing after
    [[:-4]]: the output name is then just an underscore and the right base
    name, the same for all such left files. *)
Theorem join_output_short_left_name l r :
  String.length (Path.basename l) ≤ 4 →
  join_output_basename l r = "_" +:+ Path.basename r.
Proof.
  intros Hlen. unfold join_output_basename, Path.chop4.
  replace (String.length (Path.basename l) - 4) with 0 by lia.
  by destruct (Path.basename l).
Qed.

Lemma join_output_short_left_name_witness :
  String.length (Path.basename "left_dir/a.ts") ≤ 4
  ∧ join_output_basename "left_dir/a.ts" "right_dir/video1.mp4"
    = "_" +:+ Path.basename "right_dir/video1.mp4".
Proof.
  assert (String.length (Path.basename "left_dir/a.ts") ≤ 4) as Hlen
    by (vm_compute; lia).
  split; [exact Hlen|].
  exact (join_output_short_left_name "left_dir/a.ts" "right_dir/video1.mp4" Hlen).
Defined.

(** X4: output names are not unique per pair. A left stem that ends in
    [_y] combined with the right file [z] gets the same output file as the
    left stem without [_y] combined with the right file [y_z], although
    the two pairs differ. *)
Theorem join_output_names_collide x y z ext :
  Path.plain x = true → Path.plain y = true → Path.plain z = true →
  Path.plain ext = true → String.length ext = 4 →
  join_output_file (x +:+ "_" +:+ y +:+ ext) z
    = join_output_file (x +:+ ext) (y +:+ "_" +:+ z)
  ∧ z ≠ y +:+ "_" +:+ z.
Proof.
  intros Hx Hy Hz Hext Hlen. split.
  - unfold join_output_file, join_output_basename.
    rewrite !PathFacts.basename_of_plain
      by (rewrite ?PathFacts.plain_app, ?Hx, ?Hy, ?Hz, ?Hext; done).
    rewrite <- !app_assoc_string.
    rewrite !chop4_extension by done.
    by rewrite !app_assoc_string.
  - intros Heq. apply (f_equal String.length) in Heq.
    rewrite !length_app_string in Heq. simpl in Heq. lia.
Qed.

Lemma join_output_names_collide_witness :
  join_output_file ("video" +:+ "_" +:+ "video" +:+ ".mp4") "video1.mp4"
    = join_output_file ("video" +:+ ".mp4") ("video" +:+ "_" +:+ "video1.mp4")
  ∧ "video1.mp4" ≠ "video" +:+ "_" +:+ "video1.mp4".
Proof.
  apply (join_output_names_collide "video" "video" "video1.mp4" ".mp4");
    reflexivity.
Defined.

(** ** The combine task on its own *)

(** X5: [join_videos] returns normally for every answer of the process
    launcher, also when the process cannot be started. It launches its
    command exactly once, touches neither a registry, nor
    [all_video_combinations], nor a lock, and its last printed line tells
    the outcome: "Finished writing to" exactly when the exit status is 0, a
    logged failure otherwise. *)
Theorem join_videos_always_returns launcher l r w :
  ∃ acts,
    join_videos launcher l r w = (Returned (), log acts w)
    ∧ launches acts = [join_cmd l r]
    ∧ forallb is_io acts = true
    ∧ (if succeeded (launcher (join_cmd l r))
       then printed acts = [ "Writing to " +:+ join_output_file l r;
                             "Finished writing to " +:+ join_output_file l r ]
       else failure_logged ("writing to " +:+ join_output_file l r)
                           (printed acts)
            ∧ ("Finished writing to " +:+ join_output_file l r)
                ∉ printed acts).
Proof.
  destruct (launcher (join_cmd l r)) as [rc [err|]|why] eqn:Hrun; simpl.
  - destruct (Z.eqb_spec rc 0) as [->|Hrc].
    + eexists. split; [by eapply join_videos_exit_zero|done].
    + eexists. split; [by eapply join_videos_exit_nonzero|].
      do 2 (split; [done|]). split.
      * exists err. left. set_solver.
      * simpl. intros Hin. set_unfold in Hin. destruct Hin as [Hin|[Hin|Hin]];
          [by inversion Hin..|done].
  - destruct (Z.eqb_spec rc 0) as [->|Hrc].
    + eexists. split; [by eapply join_videos_exit_zero|done].
    + eexists. split; [by eapply join_videos_exit_undecodable|].
      do 2 (split; [done|]). split.
      * exists "UnicodeDecodeError". right. set_solver.
      * simpl. intros Hin. set_unfold in Hin. destruct Hin as [Hin|[Hin|Hin]];
          [by inversion Hin..|done].
  - eexists. split; [by eapply join_videos_launch_failed|].
    do 2 (split; [done|]). split.
    + exists why. right. set_solver.
    + simpl. intros Hin. set_unfold in Hin. destruct Hin as [Hin|[Hin|Hin]];
        [by inversion Hin..|done].
Qed.

(** ** What the registries hold *)




Lemma registry_size_le L R s r :
  consistent L R s → size (reg r (shared s)) ≤ length (inputs L R r).
Proof.
  intros Hc. rewrite (c_registry _ _ _ Hc r).
  etrans; [apply size_of_list_le|].
  assert (adds r (trace (shared s)) ⊆+ artifact r <$> inputs L R r) as Hsub.
  { etrans; [|apply (c_tasks _ _ _ Hc r)]. by apply submseteq_inserts_r. }
  apply submseteq_length in Hsub. by rewrite length_fmap in Hsub.
Qed.

(** ** No turn blocks *)



(** ** Lock discipline over whole runs *)

Lemma guarded_app h a b :
  guarded h (a ++ b) = guarded h a && guarded (held_after h a) b.
Proof.
  revert h. induction a as [|[] a IH]; intros h; simpl; try done.
  - by rewrite IH, andb_assoc.
  - by rewrite IH, andb_assoc.
Qed.

Lemma held_after_app h a b :
  held_after h (a ++ b) = held_after (held_after h a) b.
Proof. revert h. induction a as [|[] a IH]; intros h; simpl; done. Qed.

Lemma io_held_after h acts : forallb is_io acts = true → held_after h acts = h.
Proof.
  induction acts as [|[] acts IH]; simpl; try done; auto.
Qed.

Lemma io_guarded_all h acts : forallb is_io acts = true → guarded h acts = true.
Proof. intros Hio. rewrite <- (app_nil_r acts). by rewrite io_guarded. Qed.

Lemma worker_turn_locked launcher vf r w :
  held w = [] →
  ∃ w' acts,
    transform_video launcher vf (lock_of r) (side_name r) w = (Returned (), w')
    ∧ trace w' = trace w ++ acts
    ∧ guarded [] acts = true
    ∧ held_after [] acts = [].
Proof.
  intros Hh.
  destruct (succeeded (launcher (transform_cmd vf (side_name r)))) eqn:Hok.
  - destruct (succeeded_true _ Hok) as [err Hrun].
    assert (lock_of r ∉ held w) as Hfree by (rewrite Hh; apply not_elem_of_nil).
    pose proof (transform_video_exit_zero launcher vf (lock_of r) (side_name r)
                  w Hfree err Hrun) as Ht.
    destruct r; (eexists _, _; split; [exact Ht|]); simpl;
      (split; [done|]); split; reflexivity.
  - destruct (transform_video_failed launcher vf (lock_of r) (side_name r) w Hok)
      as (acts & Ht & _ & Hio & _).
    exists (log acts w), acts. split; [done|]. split; [done|].
    split; [by apply io_guarded_all|by apply io_held_after].
Qed.

Lemma step_locked L R e s s' :
  consistent L R s → step L R e s = Some s' →
  ∃ acts, trace (shared s') = trace (shared s) ++ acts
          ∧ guarded [] acts = true ∧ held_after [] acts = [].
Proof.
  intros Hc Hstep. pose proof (c_locks _ _ _ Hc) as Hh.
  destruct e as [vf o|vf o|elapsed launcher].
  - simpl in Hstep.
    destruct (take_task vf (queue_left s)) as [rest|]; simpl in Hstep; [|done].
    destruct (worker_turn_locked (λ _, o) vf RegLeft (shared s) Hh)
      as (w' & acts & Ht & Htr & Hg & Ha).
    simpl in Ht. rewrite Ht in Hstep. injection Hstep as <-. by exists acts.
  - simpl in Hstep.
    destruct (take_task vf (queue_right s)) as [rest|]; simpl in Hstep; [|done].
    destruct (worker_turn_locked (λ _, o) vf RegRight (shared s) Hh)
      as (w' & acts & Ht & Htr & Hg & Ha).
    simpl in Ht. rewrite Ht in Hstep. injection Hstep as <-. by exists acts.
  - destruct (loop_exited s) eqn:He.
    { rewrite step_main_exited in Hstep by done. injection Hstep as <-.
      exists []. by rewrite app_nil_r. }
    destruct (loop_condition L R elapsed (shared s)) eqn:Hg.
    + destruct (step_main_iterates L R elapsed launcher s Hh He Hg)
        as (s2 & acts & Hs & Ht & _ & Hio & _).
      rewrite Hs in Hstep. injection Hstep as ->.
      eexists. split; [exact Ht|]. split.
      * transitivity
          (guarded [] (acts ++ [Union (cprod (transformed_left (shared s))
                                             (transformed_right (shared s)))]));
          [reflexivity|]. by rewrite (io_guarded _ acts _ Hio).
      * transitivity
          (held_after [] (acts ++ [Union (cprod (transformed_left (shared s))
                                                (transformed_right (shared s)))]));
          [reflexivity|]. by rewrite held_after_app, (io_held_after _ acts Hio).
    + rewrite step_main_leaves in Hstep by done. injection Hstep as <-.
      exists []. by rewrite app_nil_r.
Qed.

Lemma run_locked L R evs s s' :
  consistent L R s → run L R evs s = Some s' →
  guarded [] (trace (shared s)) = true →
  held_after [] (trace (shared s)) = [] →
  guarded [] (trace (shared s')) = true
  ∧ held_after [] (trace (shared s')) = [].
Proof.
  revert s. induction evs as [|e evs IH]; intros s Hc; simpl.
  - by intros [= <-].
  - destruct (step L R e s) as [s1|] eqn:Hs; simpl; [|done].
    intros Hrun Hg Ha.
    destruct (step_locked L R e s s1 Hc Hs) as (acts & Ht & Hg1 & Ha1).
    apply (IH s1); [by eapply step_consistent|done|..].
    + by rewrite Ht, guarded_app, Hg, Ha, Hg1.
    + by rewrite Ht, held_after_app, Ha, Ha1.
Qed.

(** X8: over the whole trace of every run, each insertion into a registry
    and each read of a registry happens while the lock of that registry is
    held, and every lock that was taken has been released again by the end
    of the turn that took it. *)
Theorem registry_access_always_locked L R evs s :
  run L R evs (initial L R) = Some s →
  guarded [] (trace (shared s)) = true
  ∧ held_after [] (trace (shared s)) = [].
Proof.
  intros Hrun.
  by apply (run_locked L R evs _ s (initial_consistent L R) Hrun).
Qed.

Lemma registry_access_always_locked_witness :
  run demo_left demo_right demo_one_failure (initial demo_left demo_right)
    = Some (after demo_left demo_right demo_one_failure)
  ∧ guarded [] (trace (shared (after demo_left demo_right demo_one_failure)))
    = true.
Proof.
  assert (run demo_left demo_right demo_one_failure (initial demo_left demo_right)
          = Some (after demo_left demo_right demo_one_failure)) as Hrun
    by (vm_compute; reflexivity).
  split; [exact Hrun|].
  destruct (registry_access_always_locked demo_left demo_right
              demo_one_failure _ Hrun) as (Hguard & _).
  exact Hguard.
Defined.

(** ** What the count of combinations holds *)



Lemma product_reached (a b l r : nat) :
  a ≤ l → b ≤ r → l * r ≤ a * b → l * r ≠ 0 → a = l ∧ b = r.
Proof.
  intros Ha Hb Hle Hne.
  assert (0 < l ∧ 0 < r) as [Hl Hr] by (destruct l, r; simpl in *; lia).
  split.
  - destruct (decide (a = l)) as [|Hneq]; [done|].
    assert (a * b ≤ (l - 1) * r) as Hlt by (apply Nat.mul_le_mono; lia).
    rewrite Nat.mul_sub_distr_r, Nat.mul_1_l in Hlt. lia.
  - destruct (decide (b = r)) as [|Hneq]; [done|].
    assert (a * b ≤ l * (r - 1)) as Hlt by (apply Nat.mul_le_mono; lia).
    rewrite Nat.mul_sub_distr_l, Nat.mul_1_r in Hlt. lia.
Qed.

(** X10: the loop is only ever left complete. In a state in which the
    main thread has left the loop, the count equals
    [len(left_videos) * len(right_videos)] and is the whole product of the
    two registries; and unless that number is 0, every input of either side
    has its own artifact registered, so every transform has succeeded. *)
Theorem loop_exit_means_all_counted L R evs s :
  run L R evs (initial L R) = Some s →
  loop_exited s = true →
  size (all_video_combinations (shared s)) = total_outputs_number L R
  ∧ all_video_combinations (shared s)
    = cprod (transformed_left (shared s)) (transformed_right (shared s))
  ∧ (total_outputs_number L R ≠ 0 →
     size (transformed_left (shared s)) = length L
     ∧ size (transformed_right (shared s)) = length R).
Proof.
  intros Hrun He. pose proof (reachable_consistent _ _ _ _ Hrun) as Hc.
  pose proof (c_exit _ _ _ Hc He) as Hge.
  pose proof (registry_size_le L R s RegLeft Hc) as HL.
  pose proof (registry_size_le L R s RegRight Hc) as HR.
  simpl in HL, HR.
  pose proof (subseteq_size _ _ (c_produced _ _ _ Hc)) as Hle.
  rewrite size_cprod in Hle. unfold total_outputs_number in *.
  assert (size (transformed_left (shared s)) * size (transformed_right (shared s))
          ≤ length L * length R) as Hprod by (by apply Nat.mul_le_mono).
  split; [lia|]. split.
  - apply set_subseteq_size_eq; [apply (c_produced _ _ _ Hc)|].
    rewrite size_cprod. lia.
  - intros Hne. by apply product_reached; [..|lia|].
Qed.

Lemma loop_exit_means_all_counted_witness :
  run demo_left demo_right
      (demo_transforms ++ [ MainThread (5 # 1) (λ _, exit_zero);
                            MainThread (600 # 1) (λ _, exit_zero) ])
      (initial demo_left demo_right)
    = Some (after demo_left demo_right
              (demo_transforms ++ [ MainThread (5 # 1) (λ _, exit_zero);
                                    MainThread (600 # 1) (λ _, exit_zero) ]))
  ∧ loop_exited
      (after demo_left demo_right
         (demo_transforms ++ [ MainThread (5 # 1) (λ _, exit_zero);
                               MainThread (600 # 1) (λ _, exit_zero) ])) = true
  ∧ size (all_video_combinations
            (shared (after demo_left demo_right
               (demo_transforms ++ [ MainThread (5 # 1) (λ _, exit_zero);
                                     MainThread (600 # 1) (λ _, exit_zero) ]))))
    = total_outputs_number demo_left demo_right.
Proof.
  split; [vm_compute; reflexivity|]. split; [vm_compute; reflexivity|].
  destruct (loop_exit_means_all_counted demo_left demo_right
              (demo_transforms ++ [ MainThread (5 # 1) (λ _, exit_zero);
                                    MainThread (600 # 1) (λ _, exit_zero) ])
              (after demo_left demo_right
                 (demo_transforms ++ [ MainThread (5 # 1) (λ _, exit_zero);
                                       MainThread (600 # 1) (λ _, exit_zero) ])))
    as (Hsize & _).
  - vm_compute. reflexivity.
  - vm_compute. reflexivity.
  - exact Hsize.
Defined.

Lemma step_produced_grows L R e s s' :
  consistent L R s → step L R e s = Some s' →
  all_video_combinations (shared s) ⊆ all_video_combinations (shared s').
Proof.
  intros Hc Hstep.
  destruct (worker_event e) as [(r & vf & o & ->)|(elapsed & launcher & ->)].
  - destruct (step_idle L R _ s s' Hc Hstep) as (-> & _); [left; by destruct r|done].
  - destruct (loop_exited s) eqn:He.
    { rewrite step_main_exited in Hstep by done. by injection Hstep as <-. }
    destruct (loop_condition L R elapsed (shared s)) eqn:Hg.
    + destruct (step_main_iterates L R elapsed launcher s (c_locks _ _ _ Hc) He Hg)
        as (s2 & acts & Hs & _ & _ & _ & _ & _ & _ & _ & Hall & _).
      rewrite Hs in Hstep. injection Hstep as ->. rewrite Hall. set_solver.
    + rewrite step_main_leaves in Hstep by done. by injection Hstep as <-.
Qed.

(** X11: the count only grows. Along every continuation of a run no pair
    is ever removed from [all_video_combinations], and turns of the
    transform workers leave it as it is: only the main thread adds to it. *)
Theorem produced_only_grows L R evs evs' s s' :
  run L R evs (initial L R) = Some s →
  run L R evs' s = Some s' →
  all_video_combinations (shared s) ⊆ all_video_combinations (shared s')
  ∧ (forallb is_worker_turn evs' = true →
     all_video_combinations (shared s') = all_video_combinations (shared s)).
Proof.
  intros Hrun Hrun'. pose proof (reachable_consistent _ _ _ _ Hrun) as Hc.
  split.
  - clear Hrun. revert s Hc Hrun'.
    induction evs' as [|e evs' IH]; intros s Hc; simpl.
    + by intros [= <-].
    + destruct (step L R e s) as [s1|] eqn:Hs; simpl; [|done].
      intros Hrun'. etrans; [by eapply step_produced_grows|].
      apply IH; [by eapply step_consistent|done].
  - intros Hw. destruct (run_idle L R evs' s s' Hc Hrun') as (Hall & _); auto.
Qed.

Lemma produced_only_grows_witness :
  run demo_left demo_right demo_transforms (initial demo_left demo_right)
    = Some (after demo_left demo_right demo_transforms)
  ∧ run demo_left demo_right [MainThread (5 # 1) (λ _, exit_one)]
        (after demo_left demo_right demo_transforms)
    = Some (after demo_left demo_right
              (demo_transforms ++ [MainThread (5 # 1) (λ _, exit_one)]))
  ∧ all_video_combinations (shared (after demo_left demo_right demo_transforms))
    ⊆ all_video_combinations
        (shared (after demo_left demo_right
                   (demo_transforms ++ [MainThread (5 # 1) (λ _, exit_one)]))).
Proof.
  split; [vm_compute; reflexivity|]. split; [vm_compute; reflexivity|].
  destruct (produced_only_grows demo_left demo_right demo_transforms
              [MainThread (5 # 1) (λ _, exit_one)]
              (after demo_left demo_right demo_transforms)
              (after demo_left demo_right
                 (demo_transforms ++ [MainThread (5 # 1) (λ _, exit_one)])))
    as (Hsub & _).
  - vm_compute. reflexivity.
  - vm_compute. reflexivity.
  - exact Hsub.
Defined.

(** ** The loop once the budget is spent *)

(** X12: once the clock reads more than [MAX_ENC_TIME], the loop can no
    longer be left. From a state in which the loop is still running, along
    any continuation in which every evaluation of the loop condition reads
    a time over the budget, the loop is still running afterwards, whether
    or not all pairs have been counted. *)
Theorem over_budget_loop_never_exits L R evs evs' s s' :
  run L R evs (initial L R) = Some s →
  loop_exited s = false →
  forallb late_turn evs' = true →
  run L R evs' s = Some s' →
  loop_exited s' = false.
Proof.
  intros Hrun He Hlate Hrun'.
  pose proof (reachable_consistent _ _ _ _ Hrun) as Hc.
  clear Hrun. revert s Hc He Hrun'.
  induction evs' as [|e evs' IH]; intros s Hc He; simpl.
  - by intros [= <-].
  - simpl in Hlate. apply andb_prop in Hlate as [Hl Hlate].
    destruct (step L R e s) as [s1|] eqn:Hs; simpl; [|done].
    apply (IH Hlate); [by eapply step_consistent|].
    destruct (worker_event e) as [(r & vf & o & ->)|(elapsed & launcher & ->)].
    + destruct (step_idle L R _ s s1 Hc Hs) as (_ & _ & ->);
        [left; by destruct r|done].
    + simpl in Hl.
      assert (loop_condition L R elapsed (shared s) = true) as Hg
        by (unfold loop_condition; rewrite Hl; apply orb_true_r).
      destruct (step_main_iterates L R elapsed launcher s (c_locks _ _ _ Hc) He Hg)
        as (s2 & acts & Hs2 & _ & _ & _ & _ & _ & _ & _ & _ & _ & _ & He2).
      rewrite Hs2 in Hs. by injection Hs as <-.
Qed.

Lemma over_budget_loop_never_exits_witness :
  run demo_left demo_right demo_transforms (initial demo_left demo_right)
    = Some (after demo_left demo_right demo_transforms)
  ∧ run demo_left demo_right
        [ MainThread (10801 # 1) (λ _, exit_zero);
          MainThread (20000 # 1) (λ _, exit_zero) ]
        (after demo_left demo_right demo_transforms)
    = Some (after demo_left demo_right
              (demo_transforms ++ [ MainThread (10801 # 1) (λ _, exit_zero);
                                    MainThread (20000 # 1) (λ _, exit_zero) ]))
  ∧ loop_exited
      (after demo_left demo_right
         (demo_transforms ++ [ MainThread (10801 # 1) (λ _, exit_zero);
                               MainThread (20000 # 1) (λ _, exit_zero) ]))
    = false.
Proof.
  split; [vm_compute; reflexivity|]. split; [vm_compute; reflexivity|].
  apply (over_budget_loop_never_exits demo_left demo_right demo_transforms
           [ MainThread (10801 # 1) (λ _, exit_zero);
             MainThread (20000 # 1) (λ _, exit_zero) ]
           (after demo_left demo_right demo_transforms)).
  - vm_compute. reflexivity.
  - vm_compute. reflexivity.
  - vm_compute. reflexivity.
  - vm_compute. reflexivity.
Defined.

(** ** An iteration with nothing to combine *)

Lemma cprod_empty (X Y : gset string) :
  X = ∅ ∨ Y = ∅ → (cprod X Y : gset (string * string)) = ∅.
Proof. intros [-> | ->]; apply set_eq; intros [a b]; set_solver. Qed.

Lemma loop_body_empty launcher w :
  held w = [] →
  transformed_left w = ∅ ∨ transformed_right w = ∅ →
  loop_body launcher w =
    (Returned (),
     {| transformed_left := transformed_left w;
        transformed_right := transformed_right w;
        all_video_combinations := all_video_combinations w;
        held := [];
        trace := trace w ++
          [ Acquire lock_transformed_left; Acquire lock_transformed_right;
            Read RegLeft; Read RegRight; PrintSet ∅;
            Release lock_transformed_right; Release lock_transformed_left;
            Union ∅ ] |}).
Proof.
  intros Hh Hempty. unfold loop_body.
  erewrite bind_run by (by apply snapshot_product_returns).
  rewrite (cprod_empty _ _ Hempty), elements_empty.
  unfold mapM, wait, get, set_all_video_combinations, log.
  unfold mbind, M_bind, mret, M_mret. simpl.
  rewrite Hh, union_empty_r_L, <- app_assoc. done.
Qed.

(** X13: while one of the registries is still empty, an iteration of the
    loop launches nothing and counts nothing: it takes and releases the
    locks, prints the empty set, and goes straight back to the loop
    condition without waiting. *)
Theorem empty_snapshot_iteration_is_idle L R evs s elapsed launcher :
  run L R evs (initial L R) = Some s →
  loop_exited s = false →
  loop_condition L R elapsed (shared s) = true →
  transformed_left (shared s) = ∅ ∨ transformed_right (shared s) = ∅ →
  ∃ s',
    step L R (MainThread elapsed launcher) s = Some s'
    ∧ trace (shared s') = trace (shared s) ++
        [ Acquire lock_transformed_left; Acquire lock_transformed_right;
          Read RegLeft; Read RegRight; PrintSet ∅;
          Release lock_transformed_right; Release lock_transformed_left;
          Union ∅ ]
    ∧ all_video_combinations (shared s') = all_video_combinations (shared s)
    ∧ transformed_left (shared s') = transformed_left (shared s)
    ∧ transformed_right (shared s') = transformed_right (shared s)
    ∧ loop_exited s' = false.
Proof.
  intros Hrun He Hg Hempty.
  pose proof (reachable_consistent _ _ _ _ Hrun) as Hc.
  eexists. split.
  { simpl. rewrite He, Hg.
    rewrite (loop_body_empty launcher (shared s) (c_locks _ _ _ Hc) Hempty).
    reflexivity. }
  simpl. done.
Qed.

Lemma empty_snapshot_iteration_is_idle_witness :
  ∃ s',
    step demo_left demo_right (MainThread (0 # 1) (λ _, exit_zero))
         (initial demo_left demo_right) = Some s'
    ∧ all_video_combinations (shared s')
      = all_video_combinations (shared (initial demo_left demo_right))
    ∧ loop_exited s' = false.
Proof.
  destruct (empty_snapshot_iteration_is_idle demo_left demo_right []
              (initial demo_left demo_right) (0 # 1) (λ _, exit_zero))
    as (s' & Hs & _ & Hall & _ & _ & He).
  - reflexivity.
  - reflexivity.
  - vm_compute. reflexivity.
  - left. reflexivity.
  - exists s'. split; [exact Hs|]. split; [exact Hall|exact He].
Defined.
